(** * The sync backend of [server.js]: a shallow embedding and its properties

    The development follows [src/server.js]: the list reconciler
    [mergeLists] (lines 230-249), the study-log and profile expressions of
    [handleSyncMerge] (lines 251-258), the key-value store helpers
    [getUserKey], [getUser], [setUser] (lines 121-187), the handlers
    [handleRegister], [handleLogin], [handleSyncLoad], [handleSyncMerge]
    and the router of [app.post('/api/proxy')] (lines 266-298).

    Modelling conventions.
    - A JavaScript primitive is a [prim].  Numbers are integers ([Z]); a
      property that is absent reads as [PUndefined], and JSON serialisation
      drops properties whose value is [undefined], so "absent" and
      "undefined" are one value.
    - A reconcilable entity is a record of the three properties the
      reconciler reads ([id], [updatedAt], [isDeleted]) and the remaining
      own properties, kept as one opaque value of type [Other].
    - A JavaScript [Map] is an association list in insertion order:
      [Map.prototype.set] keeps the position of a key that exists and
      appends a new one; keys are compared with SameValueZero, which on
      [prim] is equality.
    - [NaN] is [None] in a time ([option Z]); every comparison with it is
      false.
    - [Date.parse] belongs to the JavaScript runtime, not to the
      repository: it is a parameter of the reconciler.  [iso_parse] is the
      instance used on concrete inputs.
    - [String.prototype.toLowerCase] belongs to the runtime as well: it is
      the method of the class [Casing], of which nothing is assumed.
      [ascii_casing] is the instance used on concrete ASCII usernames.
    - An [updatedAt] that is a JSON object or array is outside [prim].
      The reconciler is modelled a second time over JSON values
      ([mergeListsRaw]), where [new Date(value)] converts the value to a
      primitive and may throw; on primitives it agrees with [mergeLists].
    - The entity store is the local backend ([memoryStore], lines 124-187)
      as a [gmap]; handlers run in a state-and-exception monad, so the
      store at the point of a [throw] is the one the router's [catch]
      sees.
    - The remote backend of [getUser] and [setUser] (lines 151-164 and
      174-182) is modelled beside it: what the key-value service answers
      is an input, and a handler yields its response and the writes it
      sent.
    - [handleGeminiGenerate] (lines 21-69) is modelled over JSON values
      with [fetch] as an input.  The dictionary and audio handlers
      (lines 72-116) only validate one field and relay an upstream answer;
      in the router they are the parameter [upstream]. *)

From Stdlib Require Import ZArith String Ascii List Bool Lia.
From stdpp Require Import base option list strings pretty gmap.

Local Open Scope string_scope.
Local Open Scope list_scope.
Local Open Scope Z_scope.

(** ** JavaScript values *)

Inductive prim : Type :=
  | PUndefined
  | PNull
  | PBool (b : bool)
  | PNum (n : Z)
  | PStr (s : string).

#[global] Instance prim_eq_dec : EqDecision prim.
Proof. solve_decision. Defined.

(** A value that may be [undefined] or [null] instead of an object or an
    array. *)
Inductive nullable (A : Type) : Type :=
  | Undefined
  | Null
  | Def (a : A).
Arguments Undefined {A}.
Arguments Null {A}.
Arguments Def {A} a.

(** ToBoolean. *)
Class Truthy (A : Type) := truthy : A → bool.

#[global] Instance prim_truthy : Truthy prim := λ p,
  match p with
  | PUndefined | PNull => false
  | PBool b => b
  | PNum n => negb (n =? 0)
  | PStr s => negb (String.eqb s "")
  end.

(** Objects and arrays are truthy, also the empty array. *)
#[global] Instance nullable_truthy {A} : Truthy (nullable A) := λ v,
  match v with
  | Def _ => true
  | _ => false
  end.

(** [a || b] *)
Definition js_or {A} `{Truthy A} (a b : A) : A :=
  if truthy a then a else b.

(** [l || []] followed by an array method *)
Definition or_empty {A} (l : nullable (list A)) : list A :=
  match js_or l (Def []) with
  | Def a => a
  | _ => []
  end.

(** [a === b] on primitives. *)
Definition strict_eq (a b : prim) : bool :=
  match a, b with
  | PUndefined, PUndefined => true
  | PNull, PNull => true
  | PBool x, PBool y => Bool.eqb x y
  | PNum x, PNum y => x =? y
  | PStr x, PStr y => String.eqb x y
  | _, _ => false
  end.

(** ** Dates *)

(** TimeClip of ECMA-262: a time value beyond 8.64e15 ms is [NaN]. *)
Definition TimeClip (t : Z) : option Z :=
  if Z.abs t <=? 8640000000000000 then Some t else None.

(** [a >= b] on numbers. *)
Definition js_ge (a b : option Z) : bool :=
  match a, b with
  | Some x, Some y => y <=? x
  | _, _ => false
  end.

(** *** An instance of [Date.parse]

    The format every engine must accept is the one [toISOString] writes,
    [YYYY-MM-DDTHH:mm:ss.sssZ]; [iso_parse] reads exactly that and answers
    [NaN] for anything else. *)

Definition digit (c : ascii) : option Z :=
  let n := Z.of_nat (nat_of_ascii c) in
  if (48 <=? n) && (n <=? 57) then Some (n - 48) else None.

Fixpoint digits (acc : Z) (cs : list ascii) : option Z :=
  match cs with
  | [] => Some acc
  | c :: cs' =>
      match digit c with
      | Some d => digits (10 * acc + d) cs'
      | None => None
      end
  end.

Definition is_leap (y : Z) : bool :=
  ((y mod 4 =? 0) && negb (y mod 100 =? 0)) || (y mod 400 =? 0).

Definition days_in_month (y m : Z) : Z :=
  if m =? 2 then (if is_leap y then 29 else 28)
  else if (m =? 4) || (m =? 6) || (m =? 9) || (m =? 11) then 30
  else 31.

(** Days between 1970-01-01 and the given day of the proleptic Gregorian
    calendar. *)
Definition days_from_civil (y m d : Z) : Z :=
  let y' := if m <=? 2 then y - 1 else y in
  let era := y' / 400 in
  let yoe := y' - era * 400 in
  let mp := (m + 9) mod 12 in
  let doy := (153 * mp + 2) / 5 + d - 1 in
  let doe := yoe * 365 + yoe / 4 - yoe / 100 + doy in
  era * 146097 + doe - 719468.

Definition check (b : bool) : option unit :=
  if b then Some () else None.

Definition iso_parse (s : string) : option Z :=
  match list_ascii_of_string s with
  | [y1; y2; y3; y4; c1; m1; m2; c2; d1; d2; c3; h1; h2; c4; n1; n2; c5;
     s1; s2; c6; f1; f2; f3; c7] =>
      _ ← check (String.eqb (string_of_list_ascii [c1; c2; c3; c4; c5; c6; c7])
                            "--T::.Z");
      y ← digits 0 [y1; y2; y3; y4];
      m ← digits 0 [m1; m2];
      d ← digits 0 [d1; d2];
      h ← digits 0 [h1; h2];
      n ← digits 0 [n1; n2];
      sec ← digits 0 [s1; s2];
      ms ← digits 0 [f1; f2; f3];
      _ ← check ((1 <=? m) && (m <=? 12) && (1 <=? d) && (d <=? days_in_month y m));
      _ ← check ((h <=? 23) && (n <=? 59) && (sec <=? 59)
                 || (h =? 24) && (n =? 0) && (sec =? 0) && (ms =? 0));
      TimeClip ((((days_from_civil y m d * 24 + h) * 60 + n) * 60 + sec) * 1000 + ms)
  | _ => None
  end.

(** ** Exceptions and the handler monad *)

Inductive exn : Type :=
  | TypeError (msg : string).

(** [e.message] *)
Definition message (e : exn) : string :=
  match e with
  | TypeError msg => msg
  end.

Inductive result (A : Type) : Type :=
  | Ok (a : A)
  | Throw (e : exn).
Arguments Ok {A} a.
Arguments Throw {A} e.

(** A computation over a state [St] that returns or throws; the state it
    leaves is kept in both cases. *)
Definition M (St A : Type) : Type := St → result A * St.

#[global] Instance M_ret {St} : MRet (M St) := λ A a st, (Ok a, st).

#[global] Instance M_bind {St} : MBind (M St) := λ A B f m st,
  match m st with
  | (Ok a, st') => f a st'
  | (Throw e, st') => (Throw e, st')
  end.

Definition lift {St A} (r : result A) : M St A := λ st, (r, st).

Definition get_state {St} : M St St := λ st, (Ok st, st).

Definition modify_state {St} (f : St → St) : M St unit := λ st, (Ok (), f st).

(** ** Strings *)

(** [String.prototype.toLowerCase] belongs to the JavaScript runtime: the
    store and the handlers are parametric in it. *)
Class Casing : Type := toLowerCase : string → string.

(** The lower-casing of ASCII letters, with which
    [String.prototype.toLowerCase] agrees on ASCII strings; it is the
    instance on which statements are run on concrete ASCII usernames. *)
Definition ascii_toLowerCase (c : ascii) : ascii :=
  let n := nat_of_ascii c in
  if (Nat.leb 65 n && Nat.leb n 90)%bool then ascii_of_nat (n + 32) else c.

Fixpoint toLowerCaseASCII (s : string) : string :=
  match s with
  | EmptyString => EmptyString
  | String c s' => String (ascii_toLowerCase c) (toLowerCaseASCII s')
  end.

Definition ascii_casing : Casing := toLowerCaseASCII.

(** ** The JavaScript [Map] *)

Section JSMap.
Context {V : Type}.

(** [map.get(k)]; [None] is [undefined]. *)
Fixpoint Map_get (k : prim) (m : list (prim * V)) : option V :=
  match m with
  | [] => None
  | (k', v) :: m' => if decide (k' = k) then Some v else Map_get k m'
  end.

(** [map.set(k, v)] *)
Fixpoint Map_set (k : prim) (v : V) (m : list (prim * V)) : list (prim * V) :=
  match m with
  | [] => [(k, v)]
  | (k', v') :: m' =>
      if decide (k' = k) then (k', v) :: m' else (k', v') :: Map_set k v m'
  end.

(** [Array.from(map.values())] *)
Definition Map_values (m : list (prim * V)) : list V := m.*2.

Definition Map_keys (m : list (prim * V)) : list prim := m.*1.
End JSMap.

(** ** Arrays *)

Section Arrays.
Context {A : Type}.

(** [a.findIndex(p)]: the first index whose element satisfies [p], or -1. *)
Fixpoint findIndex_from (p : A → bool) (i : Z) (a : list A) : Z :=
  match a with
  | [] => -1
  | x :: a' => if p x then i else findIndex_from p (i + 1) a'
  end.

Definition findIndex (p : A → bool) (a : list A) : Z := findIndex_from p 0 a.

(** [a.filter((v, i, a) => f(v, i, a))]: the callback sees the element,
    its index and the whole array. *)
Fixpoint filter_from (f : A → Z → list A → bool) (a : list A) (i : Z)
    (rest : list A) : list A :=
  match rest with
  | [] => []
  | v :: rest' =>
      if f v i a then v :: filter_from f a (i + 1) rest'
      else filter_from f a (i + 1) rest'
  end.

Definition js_filter (f : A → Z → list A → bool) (a : list A) : list A :=
  filter_from f a 0 a.
End Arrays.

(** ** The data model *)

Section DataModel.
Context {Other Profile : Type}.

(** A deck, a card or an achievement as the reconciler sees it. *)
Record entity : Type := {
  id : prim;
  updatedAt : prim;
  isDeleted : prim;
  other : Other
}.

(** An entry of the study history. *)
Record logEntry : Type := {
  cardId : prim;
  date : prim;
  rating : prim;
  log_other : Other
}.

Record DataBundle : Type := {
  decks : nullable (list entity);
  cards : nullable (list entity);
  studyHistory : nullable (list logEntry);
  userProfile : nullable Profile;
  userAchievements : nullable (list entity)
}.

(** The record kept in the store for one user. *)
Record user : Type := {
  username : prim;
  password : prim;
  data : nullable DataBundle
}.

(** [{ ...winner, isDeleted }] *)
Definition with_isDeleted (winner : entity) (d : prim) : entity :=
  {| id := id winner;
     updatedAt := updatedAt winner;
     isDeleted := d;
     other := other winner |}.

(** [user.data = d] *)
Definition with_data (u : user) (d : nullable DataBundle) : user :=
  {| username := username u; password := password u; data := d |}.

(** The literal
    [{ decks: [], cards: [], studyHistory: [], userProfile: null,
       userAchievements: [] }] of lines 200 and 224. *)
Definition emptyBundle : DataBundle :=
  {| decks := Def [];
     cards := Def [];
     studyHistory := Def [];
     userProfile := Null;
     userAchievements := Def [] |}.

(** *** The list reconciler (lines 230-249) *)

Section Reconciler.
Variable Date_parse : string → option Z.

(** [new Date(v).getTime()] for a primitive [v]: a string is parsed,
    anything else is converted with ToNumber and clipped. *)
Definition Date_getTime (v : prim) : option Z :=
  match v with
  | PStr s => Date_parse s
  | PNum n => TimeClip n
  | PBool b => Some (if b then 1 else 0)
  | PNull => Some 0
  | PUndefined => None
  end.

(** The body of the branch [if (existing) { ... }] up to the entity
    that is stored (lines 239-243). *)
Definition mergeEntity (existing i : entity) : entity :=
  let isDeleted' := js_or (isDeleted i) (isDeleted existing) in
  let clientTime := Date_getTime (js_or (updatedAt i) (PNum 0)) in
  let cloudTime := Date_getTime (js_or (updatedAt existing) (PNum 0)) in
  let winner := if js_ge clientTime cloudTime then i else existing in
  with_isDeleted winner isDeleted'.

(** The callback of [(cloudList || []).forEach]. *)
Definition seedStep (map : list (prim * entity)) (i : entity)
    : list (prim * entity) :=
  Map_set (id i) i map.

(** The callback of [(clientList || []).forEach].  An entity is an
    object, so [if (existing)] asks whether the key was found. *)
Definition clientStep (map : list (prim * entity)) (i : entity)
    : list (prim * entity) :=
  match Map_get (id i) map with
  | Some existing => Map_set (id i) (mergeEntity existing i) map
  | None => Map_set (id i) i map
  end.

Definition mergeLists (cloudList clientList : nullable (list entity))
    : list entity :=
  let map0 := fold_left seedStep (or_empty cloudList) [] in
  let map1 := fold_left clientStep (or_empty clientList) map0 in
  Map_values map1.
End Reconciler.

(** *** The study log (lines 254-255) *)

(** [t => t.cardId === v.cardId && t.date === v.date && t.rating === v.rating] *)
Definition sameLog (v t : logEntry) : bool :=
  strict_eq (cardId t) (cardId v) && strict_eq (date t) (date v)
  && strict_eq (rating t) (rating v).

Definition mergeLogs (cloudLog clientLog : nullable (list logEntry))
    : list logEntry :=
  js_filter (λ v i a, findIndex (sameLog v) a =? i)
            (or_empty cloudLog ++ or_empty clientLog).

(** *** The profile (line 256) *)

Definition resolveProfile (cloudProfile clientProfile : nullable Profile)
    : nullable Profile :=
  js_or clientProfile cloudProfile.

(** The object literal assigned to [user.data] (lines 251-258). *)
Definition mergeBundle (Date_parse : string → option Z)
    (cloudData clientData : DataBundle) : DataBundle :=
  {| decks := Def (mergeLists Date_parse (decks cloudData) (decks clientData));
     cards := Def (mergeLists Date_parse (cards cloudData) (cards clientData));
     studyHistory :=
       Def (mergeLogs (studyHistory cloudData) (studyHistory clientData));
     userProfile :=
       resolveProfile (userProfile cloudData) (userProfile clientData);
     userAchievements :=
       Def (mergeLists Date_parse (userAchievements cloudData)
                       (userAchievements clientData)) |}.
End DataModel.

Arguments entity : clear implicits.
Arguments logEntry : clear implicits.
Arguments DataBundle : clear implicits.
Arguments user : clear implicits.

(** ** The entity store and the handlers *)

Section Server.
Context {Other Profile : Type}.
Context {casing : Casing}.
Variable Date_parse : string → option Z.

Local Abbreviation bundle := (DataBundle Other Profile).
Local Abbreviation record := (user Other Profile).
Local Abbreviation store := (gmap string (user Other Profile)).

(** The fields of the request body that the handlers read;
    [const { action, ...payload } = req.body]. *)
Record payload : Type := {
  req_username : prim;
  req_password : prim;
  req_data : nullable bundle
}.

Record request : Type := {
  action : prim;
  req_payload : payload
}.

(** The JSON body of a response. *)
Inductive body : Type :=
  | Message (m : string)
  | Error (e : string)
  | Data (d : nullable bundle)
  | Relayed (content : string).

Record response : Type := {
  status : Z;
  resp_body : body
}.

(** Line 121.  Reading [toLowerCase] throws on [undefined] and [null];
    calling it throws on a number or a boolean, which have no such
    method. *)
Definition getUserKey (username : prim) : result string :=
  match username with
  | PStr s => Ok ("user:" +:+ toLowerCase s)
  | PUndefined =>
      Throw (TypeError "Cannot read properties of undefined (reading 'toLowerCase')")
  | PNull =>
      Throw (TypeError "Cannot read properties of null (reading 'toLowerCase')")
  | PBool _ | PNum _ =>
      Throw (TypeError "username.toLowerCase is not a function")
  end.

(** Lines 147-168, local backend: [memoryStore.get(key) || null]. *)
Definition getUser (username : prim) : M store (option record) :=
  key ← lift (getUserKey username);
  memoryStore ← get_state;
  mret (memoryStore !! key).

(** Lines 170-187, local backend: [memoryStore.set(key, userData)];
    [saveLocalDb] catches its own failures. *)
Definition setUser (userData : record) : M store unit :=
  key ← lift (getUserKey (username userData));
  modify_state (λ memoryStore, <[key := userData]> memoryStore).

(** Lines 190-204. *)
Definition handleRegister (p : payload) : M store response :=
  let username := req_username p in
  let password := req_password p in
  if negb (truthy username) || negb (truthy password)
  then mret {| status := 400; resp_body := Error "Required fields missing" |}
  else
    existingUser ← getUser username;
    match existingUser with
    | Some _ => mret {| status := 409; resp_body := Error "Username taken" |}
    | None =>
        let newUser :=
          {| username := username; password := password;
             data := Def emptyBundle |} in
        _ ← setUser newUser;
        mret {| status := 201; resp_body := Message "Registered" |}
    end.

(** Lines 206-211; [user.password !== password]. *)
Definition handleLogin (p : payload) : M store response :=
  user ← getUser (req_username p);
  match user with
  | Some u =>
      if strict_eq (password u) (req_password p)
      then mret {| status := 200; resp_body := Message "Logged in" |}
      else mret {| status := 401; resp_body := Error "Invalid credentials" |}
  | None => mret {| status := 401; resp_body := Error "Invalid credentials" |}
  end.

(** Lines 213-217. *)
Definition handleSyncLoad (p : payload) : M store response :=
  user ← getUser (req_username p);
  mret {| status := 200;
          resp_body := Data (match user with
                             | Some u => data u
                             | None => Null
                             end) |}.

(** [clientData.decks], the first property read from the client bundle
    while the object literal of line 251 is evaluated. *)
Definition readClientData (clientData : nullable bundle) : result bundle :=
  match clientData with
  | Def d => Ok d
  | Undefined =>
      Throw (TypeError "Cannot read properties of undefined (reading 'decks')")
  | Null =>
      Throw (TypeError "Cannot read properties of null (reading 'decks')")
  end.

(** [user.data || { decks: [], ... }] *)
Definition cloudDataOf (u : record) : bundle :=
  match js_or (data u) (Def emptyBundle) with
  | Def d => d
  | _ => emptyBundle
  end.

(** The assignment [user.data = ...] of line 251.  [user] is the object
    that [memoryStore] holds under the key it was read from, so the
    assignment shows in the store before [setUser] runs. *)
Definition assignData (username : prim) (u' : record) : M store unit :=
  key ← lift (getUserKey username);
  modify_state (λ memoryStore, <[key := u']> memoryStore).

(** Lines 219-262. *)
Definition handleSyncMerge (p : payload) : M store response :=
  let username := req_username p in
  let clientData := req_data p in
  user ← getUser username;
  match user with
  | None => mret {| status := 404; resp_body := Error "User not found" |}
  | Some u =>
      let cloudData := cloudDataOf u in
      clientBundle ← lift (readClientData clientData);
      let u' := with_data u (Def (mergeBundle Date_parse cloudData clientBundle)) in
      _ ← assignData username u';
      _ ← setUser u';
      mret {| status := 200; resp_body := Data (data u') |}
  end.

(** The handlers that only call an upstream service (lines 21-116) never
    touch the store; what they answer is left open. *)
Variable upstream : string → payload → response.

(** The [switch] of lines 270-293. *)
Definition route (req : request) : M store response :=
  let p := req_payload req in
  match action req with
  | PStr a =>
      if String.eqb a "ping"
      then mret {| status := 200; resp_body := Message "pong" |}
      else if String.eqb a "gemini-generate" || String.eqb a "dictionary-free"
              || String.eqb a "dictionary-mw" || String.eqb a "fetch-audio"
      then mret (upstream a p)
      else if String.eqb a "auth-register" then handleRegister p
      else if String.eqb a "auth-login" then handleLogin p
      else if String.eqb a "sync-load" then handleSyncLoad p
      else if String.eqb a "sync-merge" then handleSyncMerge p
      else if String.eqb a "ping-free-dict" || String.eqb a "ping-mw"
      then mret {| status := 200; resp_body := Message "pong" |}
      else mret {| status := 400; resp_body := Error "Invalid action" |}
  | _ => mret {| status := 400; resp_body := Error "Invalid action" |}
  end.

(** The route [app.post('/api/proxy')] with its [try]/[catch]
    (lines 266-298). *)
Definition app_post_api_proxy (req : request) (memoryStore : store)
    : response * store :=
  match route req memoryStore with
  | (Ok res, memoryStore') => (res, memoryStore')
  | (Throw e, memoryStore') =>
      ({| status := 500; resp_body := Error (message e) |}, memoryStore')
  end.
End Server.

(** ** Definitions used to state and prove the properties *)

Section Auxiliary.
Context {Other Profile : Type}.
Variable Date_parse : string → option Z.

Local Abbreviation entity := (entity Other).
Local Abbreviation logEntry := (logEntry Other).

(** The parsed time of an entity, [new Date(e.updatedAt || 0).getTime()]. *)
Definition timeOf (e : entity) : option Z :=
  Date_getTime Date_parse (js_or (updatedAt e) (PNum 0)).

(** The ids of a list that may be absent. *)
Definition idsOf (l : nullable (list entity)) : list prim :=
  id <$> or_empty l.

(** The dedup key of a log entry. *)
Definition logKey (e : logEntry) : prim * prim * prim :=
  (cardId e, date e, rating e).

(** The log merger as section 4.2 of the specification words it: walk the
    sequence and drop an entry whose key was seen earlier. *)
Fixpoint removeSeen (seen : list (prim * prim * prim)) (l : list logEntry)
    : list logEntry :=
  match l with
  | [] => []
  | v :: l' =>
      if decide (logKey v ∈ seen) then removeSeen seen l'
      else v :: removeSeen (logKey v :: seen) l'
  end.

Definition spec_mergeLogs (serverLog clientLog : list logEntry)
    : list logEntry :=
  removeSeen [] (serverLog ++ clientLog).

(** The time the specification attributes to an entity: the parsed
    [updatedAt], epoch 0 if absent or unparsable. *)
Definition spec_time (e : entity) : Z :=
  match Date_getTime Date_parse (updatedAt e) with
  | Some t => t
  | None => 0
  end.

(** The winner the specification names: the client entity if
    [clientTime >= serverTime], else the server entity. *)
Definition spec_winner (serverEntity clientEntity : entity) : entity :=
  if spec_time serverEntity <=? spec_time clientEntity
  then clientEntity else serverEntity.

(** An entity without a usable [updatedAt]: absent, [null], empty, zero
    or [false], the values that [e.updatedAt || 0] replaces by [0]. *)
Definition missingTime (e : entity) : Prop :=
  truthy (updatedAt e) = false.

(** What [Map.prototype.set] does to the sequence of keys. *)
Definition addKey (ks : list prim) (k : prim) : list prim :=
  if decide (k ∈ ks) then ks else ks ++ [k].

(** Every value of the map sits under its own id. *)
Definition keyed (m : list (prim * entity)) : Prop :=
  Forall (λ kv, id kv.2 = kv.1) m.

(** The effect of [seedStep] and of [clientStep] on the entry of one
    key. *)
Definition seedAt (k : prim) (o : option entity) (i : entity)
    : option entity :=
  if decide (id i = k) then Some i else o.

Definition clientAt (k : prim) (o : option entity) (i : entity)
    : option entity :=
  if decide (id i = k)
  then Some (match o with
             | Some existing => mergeEntity Date_parse existing i
             | None => i
             end)
  else o.

(** The two halves of [mergeEntity]: which entity supplies the fields,
    and what the flag becomes. *)
Definition pick (existing i : entity) : entity :=
  if js_ge (timeOf i) (timeOf existing) then i else existing.

Definition pickAt (k : prim) (w i : entity) : entity :=
  if decide (id i = k) then pick w i else w.

Definition flagAt (k : prim) (d : prim) (i : entity) : prim :=
  if decide (id i = k) then js_or (isDeleted i) d else d.

(** The map that [mergeLists] builds before it lists the values. *)
Definition finalMap (cloudList clientList : nullable (list entity))
    : list (prim * entity) :=
  fold_left (clientStep Date_parse) (or_empty clientList)
            (fold_left seedStep (or_empty cloudList) []).
End Auxiliary.

(** ** The shape of the store *)

Section StoreShape.
Context {Other Profile : Type}.
Context {casing : Casing}.

(** Every record sits under the key of its own username,
    [user:<lowercased username>]; [setUser] writes no other key. *)
Definition storeKeyed (memoryStore : gmap string (user Other Profile)) : Prop :=
  ∀ key r, memoryStore !! key = Some r → getUserKey (username r) = Ok key.

(** The store after a sequence of requests, served one after the other. *)
Definition serve (Date_parse : string → option Z)
    (upstream : string → payload → response)
    (requests : list request) (memoryStore : gmap string (user Other Profile))
    : gmap string (user Other Profile) :=
  fold_left (λ st req, (app_post_api_proxy Date_parse upstream req st).2)
            requests memoryStore.
End StoreShape.

(** ** The language-model handler (lines 21-69)

    [handleGeminiGenerate] reads [model], [contents] and [config] from the
    payload, builds the body of the upstream request, calls [fetch] once and
    adapts what comes back.  A JSON value is a [json]; an object holds its
    properties in order, each name once.  A value that may be [undefined]
    is an [option json]; a property whose value is [undefined] is left out
    of an object that is built, as [JSON.stringify] and [res.json] leave it
    out.  [config] is an object when it is present. *)

#[local] Unset Elimination Schemes.
Inductive json : Type :=
  | JNull
  | JBool (b : bool)
  | JNum (n : Z)
  | JStr (s : string)
  | JArr (items : list json)
  | JObj (props : list (string * json)).
#[local] Set Elimination Schemes.

#[global] Instance json_truthy : Truthy json := λ v,
  match v with
  | JNull => false
  | JBool b => b
  | JNum n => negb (n =? 0)
  | JStr s => negb (String.eqb s "")
  | JArr _ | JObj _ => true
  end.

#[global] Instance option_truthy {A} `{Truthy A} : Truthy (option A) := λ o,
  match o with
  | Some a => truthy a
  | None => false
  end.

(** The value of an own property of an object. *)
Fixpoint getProp (name : string) (props : list (string * json)) : option json :=
  match props with
  | [] => None
  | (k, v) :: props' => if String.eqb k name then Some v else getProp name props'
  end.

(** [v?.name] for the names the handler reads ([parts], [candidates],
    [content], [text]): none of them is a property of an array, a string,
    a number or a boolean. *)
Definition prop (name : string) (v : option json) : option json :=
  match v with
  | Some (JObj props) => getProp name props
  | _ => None
  end.

(** [v?.[0]] *)
Definition item0 (v : option json) : option json :=
  match v with
  | Some (JArr (x :: _)) => Some x
  | Some (JStr (String c _)) => Some (JStr (String c EmptyString))
  | Some (JObj props) => getProp "0" props
  | _ => None
  end.

(** [Array.isArray(v)] *)
Definition isArray (v : option json) : bool :=
  match v with
  | Some (JArr _) => true
  | _ => false
  end.

(** [typeof v === 'object'] *)
Definition typeof_object (v : option json) : bool :=
  match v with
  | Some JNull | Some (JArr _) | Some (JObj _) => true
  | _ => false
  end.

(** [{ name: v }] as it is serialised. *)
Definition single (name : string) (v : option json) : list (string * json) :=
  match v with
  | Some x => [(name, x)]
  | None => []
  end.

(** Lines 32-36. *)
Definition finalContents (contents : option json) : json :=
  match contents with
  | Some (JArr items) => JArr items
  | _ =>
      if truthy contents && typeof_object contents
         && truthy (prop "parts" contents)
      then JArr (match contents with Some c => [c] | None => [] end)
      else JArr [JObj [("parts", JArr [JObj (single "text" contents)])]]
  end.

(** The names that the destructuring of line 25 takes out of [config]. *)
Definition specialKeys : list string :=
  ["systemInstruction"; "responseModalities"; "speechConfig"].

(** [...generationConfig] of line 29: the other own properties. *)
Definition restConfig (config : list (string * json)) : list (string * json) :=
  filter (λ kv, kv.1 ∉ specialKeys) config.

(** [...(v && { name: v })] *)
Definition spreadIf (name : string) (v : option json) : list (string * json) :=
  if truthy v then single name v else [].

(** Lines 25-44; [config || {}]. *)
Definition googleApiBody (contents : option json)
    (config : option (list (string * json))) : json :=
  let cfg := match config with Some c => c | None => [] end in
  let generationConfig := restConfig cfg in
  JObj ([("contents", finalContents contents)]
        ++ spreadIf "systemInstruction" (getProp "systemInstruction" cfg)
        ++ spreadIf "responseModalities" (getProp "responseModalities" cfg)
        ++ spreadIf "speechConfig" (getProp "speechConfig" cfg)
        ++ (if (0 <? Z.of_nat (length generationConfig))
            then [("generationConfig", JObj generationConfig)] else [])).

(** A promise that was awaited. *)
Inductive outcome (A : Type) : Type :=
  | Resolved (a : A)
  | Rejected (msg : string).
Arguments Resolved {A} a.
Arguments Rejected {A} msg.

(** What the handler reads of the upstream response. *)
Record fetchResponse : Type := {
  ok : bool;
  upstream_status : Z;
  text : outcome string;
  json_body : outcome json
}.

Inductive proxyBody : Type :=
  | ErrorDetails (error details : string)
  | Adapted (text : json) (candidates : option json).

Record proxyResponse : Type := {
  proxy_status : Z;
  proxy_body : proxyBody
}.

(** [`${v}`] for a string that may be [undefined]. *)
Definition template (v : option string) : string :=
  match v with
  | Some s => s
  | None => "undefined"
  end.

(** [responseData.candidates?.[0]?.content?.parts?.[0]?.text || ''] for a
    [responseData] that is not [null]. *)
Definition adaptedText (responseData : json) : json :=
  let t := prop "text"
             (item0 (prop "parts"
                (prop "content"
                   (item0 (prop "candidates" (Some responseData)))))) in
  match t with
  | Some v => if truthy v then v else JStr ""
  | None => JStr ""
  end.

(** Lines 21-69.  [fetch] is the upstream: it gets the URL and the body of
    the request. *)
Definition handleGeminiGenerate (model : option string)
    (contents : option json) (config : option (list (string * json)))
    (apiKey : option string)
    (fetch : string → json → outcome fetchResponse) : proxyResponse :=
  let endpoint :=
    "https://generativelanguage.googleapis.com/v1beta/models/"
    +:+ template model +:+ ":generateContent" in
  match fetch (endpoint +:+ "?key=" +:+ template apiKey)
              (googleApiBody contents config) with
  | Rejected msg =>
      {| proxy_status := 500;
         proxy_body := ErrorDetails "Internal server error" msg |}
  | Resolved geminiResponse =>
      if negb (ok geminiResponse)
      then match text geminiResponse with
           | Resolved errorText =>
               {| proxy_status := upstream_status geminiResponse;
                  proxy_body := ErrorDetails "Google API Error" errorText |}
           | Rejected msg =>
               {| proxy_status := 500;
                  proxy_body := ErrorDetails "Internal server error" msg |}
           end
      else match json_body geminiResponse with
           | Resolved JNull =>
               {| proxy_status := 500;
                  proxy_body :=
                    ErrorDetails "Internal server error"
                      "Cannot read properties of null (reading 'candidates')" |}
           | Resolved responseData =>
               {| proxy_status := 200;
                  proxy_body :=
                    Adapted (adaptedText responseData)
                            (prop "candidates" (Some responseData)) |}
           | Rejected msg =>
               {| proxy_status := 500;
                  proxy_body := ErrorDetails "Internal server error" msg |}
           end
  end.

(** ** An instance of [Array.prototype.toString]

    The elements are joined with commas; [null] gives the empty string, a
    nested array is joined in turn, and an object gives [[object Object]]
    unless an own [toString] property makes the conversion throw.  Numbers
    are written in decimal, as JavaScript writes integers below 1e21. *)

Fixpoint joinStrings (l : list string) : string :=
  match l with
  | [] => ""
  | [x] => x
  | x :: l' => x +:+ "," +:+ joinStrings l'
  end.

Fixpoint elementString (v : json) : result string :=
  match v with
  | JNull => Ok ""
  | JBool b => Ok (if b then "true" else "false")
  | JNum n => Ok (pretty n)
  | JStr s => Ok s
  | JArr items =>
      match (fix each (l : list json) : result (list string) :=
               match l with
               | [] => Ok []
               | x :: l' =>
                   match elementString x with
                   | Throw e => Throw e
                   | Ok sx =>
                       match each l' with
                       | Throw e => Throw e
                       | Ok rest => Ok (sx :: rest)
                       end
                   end
               end) items with
      | Ok strings => Ok (joinStrings strings)
      | Throw e => Throw e
      end
  | JObj props =>
      match getProp "toString" props with
      | Some _ => Throw (TypeError "Cannot convert object to primitive value")
      | None => Ok "[object Object]"
      end
  end.

Definition Array_toString_json (items : list json) : result string :=
  elementString (JArr items).

(** ** The reconciler on an [updatedAt] that is any JSON value

    The request body is JSON, so an [updatedAt] can also be an array or an
    object.  [new Date(v)] first converts such a value to a primitive, and
    that conversion can throw.  [rawEntity] is an entity whose [updatedAt]
    is absent or any JSON value, and [mergeListsRaw] is lines 230-249 on
    such entities, with the exception that [new Date] can raise.
    [raw] embeds the entities with a primitive [updatedAt]. *)

Section RawReconciler.
Context {Other : Type}.
Variable Date_parse : string → option Z.

(** [Array.prototype.toString] of the runtime: it joins the strings of the
    elements and throws when an element cannot be converted. *)
Variable Array_toString : list json → result string.

Record rawEntity : Type := {
  raw_id : prim;
  raw_updatedAt : option json;
  raw_isDeleted : prim;
  raw_other : Other
}.

(** ToPrimitive of ECMA-262 on a value decoded from JSON.  An object tries
    [valueOf], which is not callable or gives the object back, and then
    [toString]: an own property of that name is a JSON value, which is not
    callable, and without one [Object.prototype.toString] answers. *)
Definition ToPrimitive (v : json) : result prim :=
  match v with
  | JNull => Ok PNull
  | JBool b => Ok (PBool b)
  | JNum n => Ok (PNum n)
  | JStr s => Ok (PStr s)
  | JArr items =>
      match Array_toString items with
      | Ok s => Ok (PStr s)
      | Throw e => Throw e
      end
  | JObj props =>
      match getProp "toString" props with
      | Some _ => Throw (TypeError "Cannot convert object to primitive value")
      | None => Ok (PStr "[object Object]")
      end
  end.

(** [new Date(e.updatedAt || 0).getTime()] *)
Definition rawTime (e : rawEntity) : result (option Z) :=
  match js_or (raw_updatedAt e) (Some (JNum 0)) with
  | Some v =>
      match ToPrimitive v with
      | Ok p => Ok (Date_getTime Date_parse p)
      | Throw x => Throw x
      end
  | None => Ok None
  end.

(** [{ ...winner, isDeleted }] *)
Definition raw_with_isDeleted (winner : rawEntity) (d : prim) : rawEntity :=
  {| raw_id := raw_id winner;
     raw_updatedAt := raw_updatedAt winner;
     raw_isDeleted := d;
     raw_other := raw_other winner |}.

(** Lines 239-243: the client time is computed before the server time. *)
Definition mergeEntityRaw (existing i : rawEntity) : result rawEntity :=
  let isDeleted' := js_or (raw_isDeleted i) (raw_isDeleted existing) in
  match rawTime i with
  | Throw x => Throw x
  | Ok clientTime =>
      match rawTime existing with
      | Throw x => Throw x
      | Ok cloudTime =>
          let winner := if js_ge clientTime cloudTime then i else existing in
          Ok (raw_with_isDeleted winner isDeleted')
      end
  end.

Definition seedStepRaw (map : list (prim * rawEntity)) (i : rawEntity)
    : list (prim * rawEntity) :=
  Map_set (raw_id i) i map.

Definition clientStepRaw (map : list (prim * rawEntity)) (i : rawEntity)
    : result (list (prim * rawEntity)) :=
  match Map_get (raw_id i) map with
  | Some existing =>
      match mergeEntityRaw existing i with
      | Ok merged => Ok (Map_set (raw_id i) merged map)
      | Throw x => Throw x
      end
  | None => Ok (Map_set (raw_id i) i map)
  end.

(** [(clientList || []).forEach(...)]: an exception ends the loop. *)
Fixpoint forEachRaw (clientList : list rawEntity)
    (map : list (prim * rawEntity)) : result (list (prim * rawEntity)) :=
  match clientList with
  | [] => Ok map
  | i :: rest =>
      match clientStepRaw map i with
      | Ok map' => forEachRaw rest map'
      | Throw x => Throw x
      end
  end.

Definition mergeListsRaw (cloudList clientList : nullable (list rawEntity))
    : result (list rawEntity) :=
  let map0 := fold_left seedStepRaw (or_empty cloudList) [] in
  match forEachRaw (or_empty clientList) map0 with
  | Ok map1 => Ok (Map_values map1)
  | Throw x => Throw x
  end.

(** A primitive or absent [updatedAt] as a JSON value. *)
Definition stampOf (p : prim) : option json :=
  match p with
  | PUndefined => None
  | PNull => Some JNull
  | PBool b => Some (JBool b)
  | PNum n => Some (JNum n)
  | PStr s => Some (JStr s)
  end.

Definition raw (e : entity Other) : rawEntity :=
  {| raw_id := id e;
     raw_updatedAt := stampOf (updatedAt e);
     raw_isDeleted := isDeleted e;
     raw_other := other e |}.

Definition rawList (l : nullable (list (entity Other)))
    : nullable (list rawEntity) :=
  match l with
  | Undefined => Undefined
  | Null => Null
  | Def a => Def (raw <$> a)
  end.

Definition rawMap (m : list (prim * entity Other)) : list (prim * rawEntity) :=
  (λ kv, (kv.1, raw kv.2)) <$> m.
End RawReconciler.

Arguments rawEntity : clear implicits.

(** ** The remote backend (lines 151-164 and 174-182)

    With [KV_REST_API_URL] and [KV_REST_API_TOKEN] set, [getUser] and
    [setUser] call a key-value service instead of [memoryStore].  What the
    service answers to each call is an input here, and a handler yields the
    response of the route (with the [catch] of line 294 applied) and the
    writes it sent to the service. *)

(** The outcome of the [GET] in [getUser]: an ok answer with its parsed
    [result] ([None] for an empty one), an answer that is not ok, or a
    call, a body or a [result] that could not be read. *)
Inductive kvGet (R : Type) : Type :=
  | GetResult (result : option R)
  | GetNotOk
  | GetFailed.
Arguments GetResult {R} result.
Arguments GetNotOk {R}.
Arguments GetFailed {R}.

(** The outcome of the [POST] in [setUser]. *)
Inductive kvSet : Type :=
  | SetOk
  | SetNotOk
  | SetFailed (msg : string).

Section RemoteBackend.
Context {Other Profile : Type}.
Context {casing : Casing}.
Variable Date_parse : string → option Z.

Local Abbreviation bundle := (DataBundle Other Profile).
Local Abbreviation record := (user Other Profile).
Local Abbreviation answer := (@response Other Profile).
Local Abbreviation fieldsOf := (@payload Other Profile).

(** Lines 147-164: the key is computed before the [try]; inside it every
    failure is answered with [null]. *)
Definition getUserKV (get : kvGet record) (username : prim)
    : result (option record) :=
  match getUserKey username with
  | Throw e => Throw e
  | Ok key =>
      Ok (match get with
          | GetResult result => result
          | GetNotOk | GetFailed => None
          end)
  end.

(** Lines 170-182: the message of the error thrown, if any, and the write
    that was sent. *)
Definition setUserKV (set : kvSet) (userData : record)
    : option string * list (string * record) :=
  match getUserKey (username userData) with
  | Throw e => (Some (message e), [])
  | Ok key =>
      (match set with
       | SetOk => None
       | SetNotOk => Some "Failed to write to KV"
       | SetFailed msg => Some msg
       end, [(key, userData)])
  end.

(** The response of line 296. *)
Definition routeError (msg : string) : answer :=
  {| status := 500; resp_body := Error (Other:=Other) (Profile:=Profile) msg |}.

(** [handleRegister] behind the route. *)
Definition registerKV (get : kvGet record) (set : kvSet) (p : fieldsOf)
    : answer * list (string * record) :=
  let username := req_username p in
  let password := req_password p in
  if negb (truthy username) || negb (truthy password)
  then ({| status := 400; resp_body := Error "Required fields missing" |}, [])
  else
    match getUserKV get username with
    | Throw e => (routeError (message e), [])
    | Ok (Some _) =>
        ({| status := 409; resp_body := Error "Username taken" |}, [])
    | Ok None =>
        let newUser :=
          {| username := username; password := password;
             data := Def emptyBundle |} in
        match setUserKV set newUser with
        | (Some msg, writes) => (routeError msg, writes)
        | (None, writes) =>
            ({| status := 201; resp_body := Message "Registered" |}, writes)
        end
    end.

(** [handleLogin] behind the route. *)
Definition loginKV (get : kvGet record) (p : fieldsOf) : answer :=
  match getUserKV get (req_username p) with
  | Throw e => routeError (message e)
  | Ok (Some u) =>
      if strict_eq (password u) (req_password p)
      then {| status := 200; resp_body := Message "Logged in" |}
      else {| status := 401; resp_body := Error "Invalid credentials" |}
  | Ok None => {| status := 401; resp_body := Error "Invalid credentials" |}
  end.

(** [handleSyncLoad] behind the route. *)
Definition syncLoadKV (get : kvGet record) (p : fieldsOf) : answer :=
  match getUserKV get (req_username p) with
  | Throw e => routeError (message e)
  | Ok user =>
      {| status := 200;
         resp_body := Data (match user with
                            | Some u => data u
                            | None => Null
                            end) |}
  end.

(** [handleSyncMerge] behind the route.  The record is a fresh object
    parsed from the answer, so assigning [user.data] touches nothing
    else. *)
Definition syncMergeKV (get : kvGet record) (set : kvSet) (p : fieldsOf)
    : answer * list (string * record) :=
  match getUserKV get (req_username p) with
  | Throw e => (routeError (message e), [])
  | Ok None => ({| status := 404; resp_body := Error "User not found" |}, [])
  | Ok (Some u) =>
      match readClientData (req_data p) with
      | Throw e => (routeError (message e), [])
      | Ok clientBundle =>
          let u' :=
            with_data u (Def (mergeBundle Date_parse (cloudDataOf u) clientBundle)) in
          match setUserKV set u' with
          | (Some msg, writes) => (routeError msg, writes)
          | (None, writes) =>
              ({| status := 200; resp_body := Data (data u') |}, writes)
          end
      end
  end.

(** A service that keeps what it accepts. *)
Definition applyWrites (writes : list (string * record))
    (kv : gmap string record) : gmap string record :=
  fold_left (λ m w, <[w.1 := w.2]> m) writes kv.
End RemoteBackend.

(** ** Sample data

    Concrete inputs on which the statements below are run.  Extra fields
    of an entity and the fields of a profile are lists of named
    primitives here. *)

Definition fields : Type := list (string * prim).

Arguments payload : clear implicits.
Arguments request : clear implicits.
Arguments body : clear implicits.
Arguments response : clear implicits.

Definition deck_server : entity fields :=
  {| id := PNum 1; updatedAt := PStr "2024-03-01T12:30:15.250Z";
     isDeleted := PUndefined; other := [("name", PStr "Verbs")] |}.

Definition deck_client_tie : entity fields :=
  {| id := PNum 1; updatedAt := PStr "2024-03-01T12:30:15.250Z";
     isDeleted := PUndefined;
     other := [("name", PStr "Verbs"); ("field", PStr "X")] |}.

Definition deck_server_deleted : entity fields :=
  {| id := PNum 1; updatedAt := PStr "2024-01-01T00:00:00.000Z";
     isDeleted := PBool true; other := [("name", PStr "Verbs")] |}.

Definition deck_client_newer : entity fields :=
  {| id := PNum 1; updatedAt := PStr "2024-03-01T12:30:15.250Z";
     isDeleted := PBool false; other := [("name", PStr "Irregular verbs")] |}.

Definition deck_server_unparsable : entity fields :=
  {| id := PNum 1; updatedAt := PStr "not-a-date";
     isDeleted := PUndefined; other := [("name", PStr "Server copy")] |}.

Definition deck_client_unparsable : entity fields :=
  {| id := PNum 1; updatedAt := PStr "not-a-date";
     isDeleted := PUndefined; other := [("name", PStr "Client copy")] |}.

Definition deck_server_missing : entity fields :=
  {| id := PNum 1; updatedAt := PUndefined;
     isDeleted := PUndefined; other := [("name", PStr "Server copy")] |}.

Definition deck_client_missing : entity fields :=
  {| id := PNum 1; updatedAt := PUndefined;
     isDeleted := PUndefined; other := [("name", PStr "Client copy")] |}.

Definition deck_client_dated : entity fields :=
  {| id := PNum 1; updatedAt := PStr "2024-03-01T12:30:15.250Z";
     isDeleted := PUndefined; other := [("name", PStr "Client copy")] |}.

Definition deck_client_other : entity fields :=
  {| id := PStr "d2"; updatedAt := PNum 1709296215250;
     isDeleted := PBool true; other := [("name", PStr "Nouns")] |}.

Definition log_a : logEntry fields :=
  {| cardId := PStr "a"; date := PStr "d1"; rating := PNum 3; log_other := [] |}.

Definition log_b : logEntry fields :=
  {| cardId := PStr "b"; date := PStr "d2"; rating := PNum 5; log_other := [] |}.

Definition profile_dark : fields := [("theme", PStr "dark")].

Definition profile_light : fields := [("theme", PStr "light")].

Definition alice : user fields fields :=
  {| username := PStr "Alice"; password := PStr "secret";
     data := Def emptyBundle |}.

Definition store_alice : gmap string (user fields fields) :=
  {[ "user:alice" := alice ]}.

Definition bundle_client : DataBundle fields fields :=
  {| decks := Def [deck_client_tie; deck_client_other];
     cards := Undefined;
     studyHistory := Def [log_a; log_b; log_a];
     userProfile := Def profile_light;
     userAchievements := Def [] |}.

(** An upstream that is down. *)
Definition upstream_down (a : string) (p : payload fields fields)
    : response fields fields :=
  {| status := 500; resp_body := Error "Internal server error" |}.

Definition request_of (a : string) (u pw : prim)
    (d : nullable (DataBundle fields fields)) : request fields fields :=
  {| action := PStr a;
     req_payload := {| req_username := u; req_password := pw; req_data := d |} |}.

Definition deck_client_older : entity fields :=
  {| id := PNum 1; updatedAt := PStr "2024-01-01T00:00:00.000Z";
     isDeleted := PUndefined; other := [("name", PStr "Client copy")] |}.

Definition deck_client_object_stamp : rawEntity fields :=
  {| raw_id := PNum 1;
     raw_updatedAt := Some (JObj [("toString", JNum 1)]);
     raw_isDeleted := PUndefined;
     raw_other := [("name", PStr "Client copy")] |}.

Definition deck_server_other : entity fields :=
  {| id := PStr "d3"; updatedAt := PStr "2024-01-01T00:00:00.000Z";
     isDeleted := PBool true; other := [("name", PStr "Adverbs")] |}.

Definition log_a_again : logEntry fields :=
  {| cardId := PStr "a"; date := PStr "d1"; rating := PNum 3;
     log_other := [("duration", PNum 12)] |}.

Definition bob : user fields fields :=
  {| username := PStr "Bob"; password := PStr "hunter2";
     data := Def bundle_client |}.

Definition store_two : gmap string (user fields fields) :=
  <["user:bob" := bob]> store_alice.

(** * Properties *)

(** ** Primitive operations *)

Lemma strict_eq_spec (a b : prim) : strict_eq a b = true ↔ a = b.
Proof.
  destruct a, b; simpl; try (split; [discriminate | congruence]); try tauto.
  - rewrite Bool.eqb_true_iff. split; congruence.
  - rewrite Z.eqb_eq. split; congruence.
  - rewrite String.eqb_eq. split; congruence.
Qed.

Lemma js_or_truthy {A} `{Truthy A} (a b : A) :
  truthy (js_or a b) = truthy a || truthy b.
Proof. unfold js_or. destruct (truthy a) eqn:E; simpl; auto. Qed.

Lemma js_or_self {A} `{Truthy A} (a : A) : js_or a a = a.
Proof. unfold js_or. destruct (truthy a); reflexivity. Qed.

Lemma js_or_absorb {A} `{Truthy A} (a b : A) : js_or a (js_or a b) = js_or a b.
Proof. unfold js_or. destruct (truthy a) eqn:E; rewrite ?E; reflexivity. Qed.

Lemma js_ge_refl (t : Z) : js_ge (Some t) (Some t) = true.
Proof. simpl. apply Z.leb_refl. Qed.

Lemma js_ge_Some (a b : option Z) :
  js_ge a b = true ↔ ∃ x y, a = Some x ∧ b = Some y ∧ y ≤ x.
Proof.
  destruct a as [x|], b as [y|]; simpl.
  - rewrite Z.leb_le. split; [eauto 6 | intros (?&?&?&?&?); congruence].
  - split; [discriminate | intros (?&?&?&?&?); congruence].
  - split; [discriminate | intros (?&?&?&?&?); congruence].
  - split; [discriminate | intros (?&?&?&?&?); congruence].
Qed.

(** ** The JavaScript [Map] *)

Section MapFacts.
Context {V : Type}.
Implicit Types (m : list (prim * V)) (k : prim) (v : V).

Lemma Map_get_set k k' v m :
  Map_get k (Map_set k' v m) = if decide (k' = k) then Some v else Map_get k m.
Proof.
  induction m as [|[k0 v0] m IH]; simpl.
  - destruct (decide (k' = k)); reflexivity.
  - destruct (decide (k0 = k')) as [->|Hne]; simpl.
    + destruct (decide (k' = k)); reflexivity.
    + rewrite IH. destruct (decide (k0 = k)) as [->|]; [|reflexivity].
      destruct (decide (k' = k)); congruence.
Qed.

Lemma Map_get_None k m : Map_get k m = None ↔ k ∉ Map_keys m.
Proof.
  unfold Map_keys. induction m as [|[k0 v0] m IH]; simpl.
  - split; [intros _; apply not_elem_of_nil | reflexivity].
  - rewrite not_elem_of_cons. destruct (decide (k0 = k)) as [->|Hne].
    + split; [discriminate | intros [? _]; congruence].
    + rewrite IH. split; [intros; split; [congruence | done] | tauto].
Qed.

Lemma Map_get_Some k m : is_Some (Map_get k m) ↔ k ∈ Map_keys m.
Proof.
  destruct (decide (k ∈ Map_keys m)) as [Hin|Hout].
  - split; [done | intros _].
    destruct (Map_get k m) eqn:E; [eauto |].
    apply Map_get_None in E. contradiction.
  - split; [| contradiction]. intros [v Hv].
    apply Map_get_None in Hout. congruence.
Qed.

Lemma Map_keys_set k v m : Map_keys (Map_set k v m) = addKey (Map_keys m) k.
Proof.
  unfold Map_keys, addKey. induction m as [|[k0 v0] m IH]; simpl.
  - reflexivity.
  - destruct (decide (k0 = k)) as [->|Hne]; simpl.
    + rewrite decide_True; [reflexivity | apply list_elem_of_here].
    + fold (fmap (M:=list) (@fst prim V)). rewrite IH.
      destruct (decide (k ∈ m.*1)) as [Hin|Hout].
      * rewrite decide_True; [reflexivity | by apply list_elem_of_further].
      * rewrite decide_False; [reflexivity |].
        rewrite elem_of_cons. intros [->|]; congruence.
Qed.

(** A map without repeated keys is determined by its keys and lookups. *)
Lemma Map_ext m1 m2 :
  NoDup (Map_keys m1) → Map_keys m1 = Map_keys m2 →
  (∀ k, Map_get k m1 = Map_get k m2) → m1 = m2.
Proof.
  unfold Map_keys. revert m2.
  induction m1 as [|[k1 v1] m1 IH]; intros [|[k2 v2] m2] Hnd Hk Hg;
    simpl in *; try discriminate; [reflexivity |].
  injection Hk as -> Hk. apply NoDup_cons in Hnd as [Hk2 Hnd].
  pose proof (Hg k2) as Hv. rewrite !decide_True in Hv by reflexivity.
  injection Hv as ->. f_equal. apply IH; [done | done |].
  intros k. specialize (Hg k).
  destruct (decide (k2 = k)) as [->|Hne]; [| exact Hg].
  transitivity (@None V); [| symmetry].
  - by apply Map_get_None.
  - apply Map_get_None. unfold Map_keys, fmap. by rewrite <- Hk.
Qed.
End MapFacts.

Lemma addKey_elem (ks : list prim) (k k' : prim) :
  k' ∈ addKey ks k ↔ k' ∈ ks ∨ k' = k.
Proof.
  unfold addKey. destruct (decide (k ∈ ks)) as [Hin|Hout].
  - split; [tauto | intros [?| ->]; done].
  - rewrite elem_of_app, list_elem_of_singleton. tauto.
Qed.

Lemma addKey_NoDup (ks : list prim) (k : prim) : NoDup ks → NoDup (addKey ks k).
Proof.
  intros Hnd. unfold addKey. destruct (decide (k ∈ ks)) as [Hin|Hout]; [done |].
  apply NoDup_app. split; [done |]. split.
  - intros x Hx Hx'. apply list_elem_of_singleton in Hx'. congruence.
  - apply NoDup_singleton.
Qed.

Lemma fold_addKey_elem (l ks : list prim) (k : prim) :
  k ∈ fold_left addKey l ks ↔ k ∈ ks ∨ k ∈ l.
Proof.
  revert ks. induction l as [|x l IH]; intros ks; simpl.
  - rewrite elem_of_nil. tauto.
  - rewrite IH, addKey_elem, elem_of_cons. tauto.
Qed.

Lemma fold_addKey_NoDup (l ks : list prim) :
  NoDup ks → NoDup (fold_left addKey l ks).
Proof.
  revert ks. induction l as [|x l IH]; intros ks Hnd; simpl; [done |].
  apply IH. by apply addKey_NoDup.
Qed.

Lemma fold_addKey_absorbed (l ks : list prim) :
  (∀ k, k ∈ l → k ∈ ks) → fold_left addKey l ks = ks.
Proof.
  revert ks. induction l as [|x l IH]; intros ks Hsub; simpl; [done |].
  unfold addKey at 2. rewrite decide_True by (apply Hsub; left).
  apply IH. intros k Hk. apply Hsub. by right.
Qed.

(** ** The list reconciler *)

Section ReconcilerFacts.
Context {Other : Type}.
Variable Date_parse : string → option Z.

Local Abbreviation entity := (entity Other).

Implicit Types (e i w s c : entity) (m : list (prim * entity)) (k d : prim).

Lemma with_isDeleted_same e : with_isDeleted e (isDeleted e) = e.
Proof. by destruct e. Qed.

Lemma with_isDeleted_twice w d d' :
  with_isDeleted (with_isDeleted w d) d' = with_isDeleted w d'.
Proof. reflexivity. Qed.

Lemma timeOf_with_isDeleted w d : timeOf Date_parse (with_isDeleted w d) = timeOf Date_parse w.
Proof. reflexivity. Qed.

Lemma mergeEntity_pick e i :
  mergeEntity Date_parse e i = with_isDeleted (pick Date_parse e i) (js_or (isDeleted i) (isDeleted e)).
Proof. reflexivity. Qed.

Lemma pick_cases e i : pick Date_parse e i = i ∨ pick Date_parse e i = e.
Proof. unfold pick. destruct (js_ge _ _); auto. Qed.

Lemma mergeEntity_id e i : id e = id i → id (mergeEntity Date_parse e i) = id i.
Proof.
  intros He. rewrite mergeEntity_pick. simpl.
  destruct (pick_cases e i) as [-> | ->]; done.
Qed.

Lemma mergeEntity_self e : mergeEntity Date_parse e e = e.
Proof.
  rewrite mergeEntity_pick, js_or_self.
  destruct (pick_cases e e) as [-> | ->]; apply with_isDeleted_same.
Qed.

(** *** The map stays keyed by id *)

Lemma keyed_get m k e : keyed m → Map_get k m = Some e → id e = k.
Proof.
  unfold keyed. induction m as [|[k0 v0] m IH]; simpl; [discriminate |].
  intros [Hhd Htl]%Forall_cons. destruct (decide (k0 = k)) as [<-|Hne].
  - intros [= <-]. exact Hhd.
  - by apply IH.
Qed.

Lemma keyed_set m k e : keyed m → id e = k → keyed (Map_set k e m).
Proof.
  unfold keyed. intros Hm He. induction m as [|[k0 v0] m IH]; simpl.
  - by repeat constructor.
  - apply Forall_cons in Hm as [Hhd Htl].
    destruct (decide (k0 = k)) as [->|Hne]; constructor; auto.
Qed.

Lemma keyed_seedStep m i : keyed m → keyed (seedStep m i).
Proof. intros Hm. by apply keyed_set. Qed.

Lemma keyed_clientStep m i : keyed m → keyed (clientStep Date_parse m i).
Proof.
  intros Hm. unfold clientStep.
  destruct (Map_get (id i) m) as [existing|] eqn:Hget.
  - apply keyed_set; [done |]. apply mergeEntity_id. by eapply keyed_get.
  - by apply keyed_set.
Qed.

Lemma keyed_fold_seedStep l m : keyed m → keyed (fold_left seedStep l m).
Proof.
  revert m. induction l as [|i l IH]; intros m Hm; simpl; [done |].
  by apply IH, keyed_seedStep.
Qed.

Lemma keyed_fold_clientStep l m : keyed m → keyed (fold_left (clientStep Date_parse) l m).
Proof.
  revert m. induction l as [|i l IH]; intros m Hm; simpl; [done |].
  by apply IH, keyed_clientStep.
Qed.

Lemma keyed_values m : keyed m → id <$> Map_values m = Map_keys m.
Proof.
  unfold keyed, Map_values, Map_keys.
  induction 1 as [|[k0 v0] m Hhd _ IH]; simpl in *; [done |]. by f_equal.
Qed.

(** *** Keys *)

Lemma Map_keys_seedStep m i : Map_keys (seedStep m i) = addKey (Map_keys m) (id i).
Proof. apply Map_keys_set. Qed.

Lemma Map_keys_clientStep m i :
  Map_keys (clientStep Date_parse m i) = addKey (Map_keys m) (id i).
Proof.
  unfold clientStep.
  destruct (Map_get (id i) m); apply Map_keys_set.
Qed.

Lemma Map_keys_fold_seedStep l m :
  Map_keys (fold_left seedStep l m) = fold_left addKey (id <$> l) (Map_keys m).
Proof.
  revert m. induction l as [|i l IH]; intros m; simpl; [done |].
  by rewrite IH, Map_keys_seedStep.
Qed.

Lemma Map_keys_fold_clientStep l m :
  Map_keys (fold_left (clientStep Date_parse) l m) = fold_left addKey (id <$> l) (Map_keys m).
Proof.
  revert m. induction l as [|i l IH]; intros m; simpl; [done |].
  by rewrite IH, Map_keys_clientStep.
Qed.

(** *** Lookups, key by key *)

Lemma Map_get_seedStep k m i :
  Map_get k (seedStep m i) = seedAt k (Map_get k m) i.
Proof. unfold seedStep, seedAt. apply Map_get_set. Qed.

Lemma Map_get_clientStep k m i :
  Map_get k (clientStep Date_parse m i) = clientAt Date_parse k (Map_get k m) i.
Proof.
  unfold clientStep, clientAt.
  destruct (Map_get (id i) m) as [existing|] eqn:Hget;
    rewrite Map_get_set; destruct (decide (id i = k)) as [<-|]; try done;
    by rewrite Hget.
Qed.

Lemma Map_get_fold_seedStep k l m :
  Map_get k (fold_left seedStep l m) = fold_left (seedAt k) l (Map_get k m).
Proof.
  revert m. induction l as [|i l IH]; intros m; simpl; [done |].
  by rewrite IH, Map_get_seedStep.
Qed.

Lemma Map_get_fold_clientStep k l m :
  Map_get k (fold_left (clientStep Date_parse) l m) = fold_left (clientAt Date_parse k) l (Map_get k m).
Proof.
  revert m. induction l as [|i l IH]; intros m; simpl; [done |].
  by rewrite IH, Map_get_clientStep.
Qed.

Lemma Map_values_filter k m :
  keyed m → NoDup (Map_keys m) →
  filter (λ e, id e = k) (Map_values m) = option_list (Map_get k m).
Proof.
  unfold keyed, Map_values, Map_keys.
  induction m as [|[k0 v0] m IH]; csimpl; [done |].
  intros [Hhd Htl]%Forall_cons [Hk0 Hnd]%NoDup_cons. simpl in Hhd.
  destruct (decide (k0 = k)) as [<-|Hne].
  - rewrite filter_cons_True by done. rewrite IH by done.
    assert (Map_get k0 m = None) as -> by by apply Map_get_None.
    done.
  - rewrite filter_cons_False by congruence. by apply IH.
Qed.

(** *** The map that [mergeLists] builds *)

Implicit Types (S C : nullable (list entity)).

Lemma mergeLists_finalMap S C :
  mergeLists Date_parse S C = Map_values (finalMap Date_parse S C).
Proof. reflexivity. Qed.

Lemma finalMap_keyed S C : keyed (finalMap Date_parse S C).
Proof.
  apply keyed_fold_clientStep, keyed_fold_seedStep. constructor.
Qed.

Lemma finalMap_keys S C :
  Map_keys (finalMap Date_parse S C)
  = fold_left addKey (idsOf C) (fold_left addKey (idsOf S) []).
Proof.
  unfold finalMap. by rewrite Map_keys_fold_clientStep, Map_keys_fold_seedStep.
Qed.

Lemma finalMap_NoDup S C : NoDup (Map_keys (finalMap Date_parse S C)).
Proof.
  rewrite finalMap_keys. apply fold_addKey_NoDup, fold_addKey_NoDup, NoDup_nil_2.
Qed.

Lemma finalMap_elem S C k :
  k ∈ Map_keys (finalMap Date_parse S C) ↔ k ∈ idsOf S ++ idsOf C.
Proof.
  rewrite finalMap_keys, !fold_addKey_elem, elem_of_app, elem_of_nil. tauto.
Qed.

Lemma Map_get_finalMap S C k :
  Map_get k (finalMap Date_parse S C)
  = fold_left (clientAt Date_parse k) (or_empty C)
              (fold_left (seedAt k) (or_empty S) None).
Proof.
  unfold finalMap. by rewrite Map_get_fold_clientStep, Map_get_fold_seedStep.
Qed.

Lemma mergeLists_filter S C k :
  filter (λ e, id e = k) (mergeLists Date_parse S C)
  = option_list (Map_get k (finalMap Date_parse S C)).
Proof.
  rewrite mergeLists_finalMap.
  apply Map_values_filter; [apply finalMap_keyed | apply finalMap_NoDup].
Qed.

Lemma mergeLists_ids S C :
  id <$> mergeLists Date_parse S C = Map_keys (finalMap Date_parse S C).
Proof. rewrite mergeLists_finalMap. apply keyed_values, finalMap_keyed. Qed.

Lemma mergeLists_NoDup S C : NoDup (id <$> mergeLists Date_parse S C).
Proof. rewrite mergeLists_ids. apply finalMap_NoDup. Qed.

(** *** One key in lists without repeated ids *)

Lemma fold_seedAt_notin k (l : list entity) o :
  k ∉ id <$> l → fold_left (seedAt k) l o = o.
Proof.
  revert o. induction l as [|i l IH]; intros o; csimpl; [done |].
  intros [Hne Hl]%not_elem_of_cons. rewrite IH by done.
  unfold seedAt. by rewrite decide_False.
Qed.

Lemma fold_seedAt_in s (l : list entity) o :
  NoDup (id <$> l) → s ∈ l → fold_left (seedAt (id s)) l o = Some s.
Proof.
  revert o. induction l as [|i l IH]; intros o; csimpl.
  - intros _ []%elem_of_nil.
  - intros [Hi Hnd]%NoDup_cons [->|Hs]%elem_of_cons.
    + rewrite fold_seedAt_notin by done. unfold seedAt. by rewrite decide_True.
    + by apply IH.
Qed.

Lemma fold_clientAt_notin k (l : list entity) o :
  k ∉ id <$> l → fold_left (clientAt Date_parse k) l o = o.
Proof.
  revert o. induction l as [|i l IH]; intros o; csimpl; [done |].
  intros [Hne Hl]%not_elem_of_cons. rewrite IH by done.
  unfold clientAt. by rewrite decide_False.
Qed.

Lemma fold_clientAt_in c (l : list entity) o :
  NoDup (id <$> l) → c ∈ l →
  fold_left (clientAt Date_parse (id c)) l o
  = Some (match o with
          | Some existing => mergeEntity Date_parse existing c
          | None => c
          end).
Proof.
  revert o. induction l as [|i l IH]; intros o; csimpl.
  - intros _ []%elem_of_nil.
  - intros [Hi Hnd]%NoDup_cons [->|Hc]%elem_of_cons.
    + rewrite fold_clientAt_notin by done. unfold clientAt.
      by rewrite decide_True.
    + rewrite IH by done. unfold clientAt. rewrite decide_False; [done |].
      intros Heq. apply Hi. rewrite Heq. by apply list_elem_of_fmap_2.
Qed.

(** An id that both lists carry once holds the merge of its two
    versions. *)
Lemma mergeLists_both S C s c :
  NoDup (idsOf S) → NoDup (idsOf C) →
  s ∈ or_empty S → c ∈ or_empty C → id s = id c →
  filter (λ e, id e = id c) (mergeLists Date_parse S C)
  = [mergeEntity Date_parse s c].
Proof.
  intros HS HC Hs Hc Hid.
  rewrite mergeLists_filter, Map_get_finalMap.
  rewrite (fold_clientAt_in c) by done.
  rewrite <- Hid. by rewrite (fold_seedAt_in s).
Qed.

(** An id that only the client list carries, once, holds the client
    entity as it came. *)
Lemma mergeLists_client_only S C c :
  NoDup (idsOf C) → c ∈ or_empty C → id c ∉ idsOf S →
  filter (λ e, id e = id c) (mergeLists Date_parse S C) = [c].
Proof.
  intros HC Hc Hid.
  rewrite mergeLists_filter, Map_get_finalMap.
  rewrite (fold_clientAt_in c) by done.
  by rewrite fold_seedAt_notin.
Qed.

(** An id that only the server list carries, once, holds the server
    entity as it was. *)
Lemma mergeLists_server_only S C s :
  NoDup (idsOf S) → s ∈ or_empty S → id s ∉ idsOf C →
  filter (λ e, id e = id s) (mergeLists Date_parse S C) = [s].
Proof.
  intros HS Hs Hid.
  rewrite mergeLists_filter, Map_get_finalMap.
  rewrite fold_clientAt_notin by done.
  by rewrite (fold_seedAt_in s).
Qed.
End ReconcilerFacts.

(** ** The study log *)

Section ArrayFacts.
Context {A : Type}.
Implicit Types (p : A → bool) (pre rest : list A) (j : Z).

Lemma findIndex_from_skip p j pre rest :
  (∀ x, x ∈ pre → p x = false) →
  findIndex_from p j (pre ++ rest)
  = findIndex_from p (j + Z.of_nat (length pre)) rest.
Proof.
  revert j. induction pre as [|x pre IH]; intros j Hpre; simpl.
  - f_equal. lia.
  - rewrite Hpre by left. rewrite IH by (intros; apply Hpre; by right).
    f_equal. lia.
Qed.

Lemma findIndex_from_hit p j pre rest x :
  x ∈ pre → p x = true →
  j ≤ findIndex_from p j (pre ++ rest) < j + Z.of_nat (length pre).
Proof.
  revert j. induction pre as [|y pre IH]; intros j Hx Hp; simpl.
  - by apply elem_of_nil in Hx.
  - destruct (p y) eqn:Hy; [lia |].
    apply elem_of_cons in Hx as [->|Hx]; [congruence |].
    specialize (IH (j + 1) Hx Hp). lia.
Qed.
End ArrayFacts.

Section LogFacts.
Context {Other : Type}.

Local Abbreviation logEntry := (logEntry Other).
Implicit Types (v t : logEntry) (l pre rest : list logEntry)
  (seen : list (prim * prim * prim)).

Lemma sameLog_spec v t : sameLog v t = true ↔ logKey t = logKey v.
Proof.
  unfold sameLog, logKey.
  rewrite !andb_true_iff, !strict_eq_spec. split.
  - intros [[-> ->] ->]. reflexivity.
  - intros [= -> -> ->]. done.
Qed.

Lemma sameLog_refl v : sameLog v v = true.
Proof. by apply sameLog_spec. Qed.

Lemma sameLog_none v pre :
  logKey v ∉ logKey <$> pre → ∀ x, x ∈ pre → sameLog v x = false.
Proof.
  intros Hout x Hx. destruct (sameLog v x) eqn:E; [| done].
  apply sameLog_spec in E. destruct Hout. rewrite <- E.
  by apply list_elem_of_fmap_2.
Qed.

(** The [filter] of line 255 walks the array as [removeSeen] does. *)
Lemma filter_from_removeSeen rest pre seen a :
  a = pre ++ rest →
  (∀ k, k ∈ seen ↔ k ∈ logKey <$> pre) →
  filter_from (λ v i a, findIndex (sameLog v) a =? i) a
              (Z.of_nat (length pre)) rest
  = removeSeen seen rest.
Proof.
  revert pre seen. induction rest as [|v rest IH]; intros pre seen Ha Hseen;
    simpl; [done |].
  assert (a = (pre ++ [v]) ++ rest) as Ha' by by rewrite <- app_assoc.
  assert (Z.of_nat (length pre) + 1 = Z.of_nat (length (pre ++ [v]))) as ->
    by (rewrite length_app; simpl; lia).
  destruct (decide (logKey v ∈ seen)) as [Hin|Hout].
  - apply Hseen, list_elem_of_fmap in Hin as (x & Hkey & Hx).
    pose proof (findIndex_from_hit (sameLog v) 0 pre (v :: rest) x Hx) as Hhit.
    rewrite <- Ha in Hhit. unfold findIndex.
    destruct (Z.eqb_spec (findIndex_from (sameLog v) 0 a) (Z.of_nat (length pre)))
      as [Heq|_].
    + rewrite Heq in Hhit. specialize (Hhit (proj2 (sameLog_spec v x) (eq_sym Hkey))).
      lia.
    + apply IH; [done |]. intros k. rewrite Hseen, fmap_app, elem_of_app.
      simpl. rewrite list_elem_of_singleton. split; [tauto |].
      intros [?| ->]; [done |]. rewrite Hkey. by apply list_elem_of_fmap_2.
  - assert (findIndex (sameLog v) a = Z.of_nat (length pre)) as ->.
    { unfold findIndex. rewrite Ha, findIndex_from_skip.
      - simpl. by rewrite sameLog_refl.
      - apply sameLog_none. by rewrite <- Hseen. }
    rewrite Z.eqb_refl. f_equal. apply IH; [done |].
    intros k. rewrite elem_of_cons, Hseen, fmap_app, elem_of_app.
    simpl. rewrite list_elem_of_singleton. tauto.
Qed.

Lemma mergeLogs_removeSeen (cloudLog clientLog : nullable (list logEntry)) :
  mergeLogs cloudLog clientLog
  = removeSeen [] (or_empty cloudLog ++ or_empty clientLog).
Proof.
  unfold mergeLogs, js_filter.
  by apply (filter_from_removeSeen _ []).
Qed.

(** *** Facts about [removeSeen] *)

Lemma removeSeen_equiv seen1 seen2 l :
  (∀ k, k ∈ seen1 ↔ k ∈ seen2) → removeSeen seen1 l = removeSeen seen2 l.
Proof.
  revert seen1 seen2. induction l as [|v l IH]; intros seen1 seen2 Heq;
    simpl; [done |].
  destruct (decide (logKey v ∈ seen1)) as [H1|H1].
  - rewrite decide_True by by apply Heq. by apply IH.
  - rewrite decide_False by by rewrite <- Heq. f_equal. apply IH.
    intros k. rewrite !elem_of_cons, Heq. tauto.
Qed.

Lemma removeSeen_app seen l1 l2 :
  removeSeen seen (l1 ++ l2)
  = removeSeen seen l1 ++ removeSeen ((logKey <$> l1) ++ seen) l2.
Proof.
  revert seen. induction l1 as [|v l1 IH]; intros seen; csimpl; [done |].
  destruct (decide (logKey v ∈ seen)) as [Hin|Hout].
  - rewrite IH. f_equal. apply removeSeen_equiv. intros k.
    rewrite elem_of_cons, !elem_of_app. split; [tauto |].
    intros [->|?]; tauto.
  - simpl. rewrite IH. do 2 f_equal. apply removeSeen_equiv. intros k.
    rewrite !elem_of_cons, !elem_of_app, elem_of_cons. tauto.
Qed.

Lemma removeSeen_all_seen seen l :
  (∀ v, v ∈ l → logKey v ∈ seen) → removeSeen seen l = [].
Proof.
  induction l as [|v l IH]; intros Hall; simpl; [done |].
  rewrite decide_True by (apply Hall; left).
  apply IH. intros; apply Hall; by right.
Qed.

Lemma removeSeen_idem seen l :
  removeSeen seen (removeSeen seen l) = removeSeen seen l.
Proof.
  revert seen. induction l as [|v l IH]; intros seen; simpl; [done |].
  destruct (decide (logKey v ∈ seen)) as [Hin|Hout]; [apply IH |].
  simpl. rewrite decide_False by done. f_equal. apply IH.
Qed.

Lemma removeSeen_covers seen l v :
  v ∈ l → logKey v ∈ seen ∨ logKey v ∈ logKey <$> removeSeen seen l.
Proof.
  revert seen. induction l as [|x l IH]; intros seen Hv; simpl.
  - by apply elem_of_nil in Hv.
  - apply elem_of_cons in Hv as [->|Hv].
    + destruct (decide (logKey x ∈ seen)); [by left | right].
      csimpl. left.
    + destruct (decide (logKey x ∈ seen)); [by apply IH |].
      destruct (IH (logKey x :: seen) Hv) as [[->|?]%elem_of_cons|?].
      * right. csimpl. left.
      * by left.
      * right. csimpl. by right.
Qed.

Lemma removeSeen_fresh seen l k :
  k ∈ logKey <$> removeSeen seen l → k ∉ seen.
Proof.
  revert seen. induction l as [|x l IH]; intros seen; simpl.
  - by intros ?%elem_of_nil.
  - destruct (decide (logKey x ∈ seen)) as [Hin|Hout]; [apply IH |].
    csimpl. intros [->|Hk]%elem_of_cons; [done |].
    apply IH in Hk. by apply not_elem_of_cons in Hk as [_ ?].
Qed.

Lemma removeSeen_NoDup seen l : NoDup (logKey <$> removeSeen seen l).
Proof.
  revert seen. induction l as [|x l IH]; intros seen; simpl.
  - constructor.
  - destruct (decide (logKey x ∈ seen)) as [Hin|Hout]; [apply IH |].
    csimpl. apply NoDup_cons. split; [| apply IH].
    intros Hk%removeSeen_fresh. apply Hk. left.
Qed.

(** Merging the client log into the merged log adds nothing. *)
Lemma mergeLogs_idem (cloudLog clientLog : nullable (list logEntry)) :
  mergeLogs (Def (mergeLogs cloudLog clientLog)) clientLog
  = mergeLogs cloudLog clientLog.
Proof.
  rewrite (mergeLogs_removeSeen (Def _)). rewrite !mergeLogs_removeSeen.
  change (or_empty (Def ?l)) with l.
  rewrite removeSeen_app, removeSeen_idem.
  rewrite (removeSeen_all_seen _ (or_empty clientLog)); [by rewrite app_nil_r |].
  intros v Hv. rewrite app_nil_r.
  destruct (removeSeen_covers [] (or_empty cloudLog ++ or_empty clientLog) v)
    as [[]%elem_of_nil|?]; [| done].
  apply elem_of_app. by right.
Qed.

Lemma mergeLogs_NoDup (cloudLog clientLog : nullable (list logEntry)) :
  NoDup (logKey <$> mergeLogs cloudLog clientLog).
Proof. rewrite mergeLogs_removeSeen. apply removeSeen_NoDup. Qed.
End LogFacts.

(** ** Merging the same client list again *)

Section RepeatedMerge.
Context {Other : Type}.
Variable Date_parse : string → option Z.

Local Abbreviation entity := (entity Other).
Implicit Types (e i w x y c : entity) (l : list entity)
  (m : list (prim * entity)) (k d : prim) (o : option entity).

Lemma clientAt_other k o c : id c ≠ k → clientAt Date_parse k o c = o.
Proof. intros Hc. unfold clientAt. by rewrite decide_False. Qed.

Lemma clientAt_same k o c :
  id c = k →
  clientAt Date_parse k o c
  = Some (match o with
          | Some existing => mergeEntity Date_parse existing c
          | None => c
          end).
Proof. intros Hc. unfold clientAt. by rewrite decide_True. Qed.

(** The entry of one key after a run of client entities: the fields come
    from [pickAt], the flag from [flagAt]. *)
Lemma fold_pickAt_with_isDeleted k l y d d' :
  with_isDeleted (fold_left (pickAt Date_parse k) l (with_isDeleted y d)) d'
  = with_isDeleted (fold_left (pickAt Date_parse k) l y) d'.
Proof.
  revert y. induction l as [|i l IH]; intros y; simpl; [done |].
  unfold pickAt at 2 4. destruct (decide (id i = k)); [| apply IH].
  unfold pick. rewrite timeOf_with_isDeleted.
  destruct (js_ge _ _); [done | apply IH].
Qed.

Lemma fold_clientAt_Some k l x :
  fold_left (clientAt Date_parse k) l (Some x)
  = Some (with_isDeleted (fold_left (pickAt Date_parse k) l x)
                         (fold_left (flagAt k) l (isDeleted x))).
Proof.
  revert x. induction l as [|i l IH]; intros x; simpl.
  - by rewrite with_isDeleted_same.
  - unfold clientAt at 2, pickAt at 2, flagAt at 2.
    destruct (decide (id i = k)); [| apply IH].
    rewrite IH, mergeEntity_pick. simpl.
    by rewrite fold_pickAt_with_isDeleted.
Qed.

Lemma fold_clientAt_None k l o :
  fold_left (clientAt Date_parse k) l o = None → o = None ∧ k ∉ id <$> l.
Proof.
  revert o. induction l as [|i l IH]; intros o; csimpl.
  - intros ->. split; [done | apply not_elem_of_nil].
  - unfold clientAt at 2. destruct (decide (id i = k)) as [Hi|Hi].
    + by rewrite fold_clientAt_Some.
    + intros [-> Hl]%IH. split; [done |].
      apply not_elem_of_cons. split; [congruence | done].
Qed.

(** *** Times along a run *)

Lemma fold_pickAt_NaN k l x :
  timeOf Date_parse x = None → fold_left (pickAt Date_parse k) l x = x.
Proof.
  intros Hx. induction l as [|i l IH]; simpl; [done |].
  unfold pickAt at 2, pick. rewrite Hx.
  destruct (decide (id i = k)); [| done].
  by destruct (timeOf Date_parse i).
Qed.

Lemma fold_pickAt_time k l x a :
  timeOf Date_parse x = Some a →
  ∃ b, timeOf Date_parse (fold_left (pickAt Date_parse k) l x) = Some b
       ∧ a ≤ b
       ∧ ∀ z u, z ∈ l → id z = k → timeOf Date_parse z = Some u → u ≤ b.
Proof.
  revert x a. induction l as [|i l IH]; intros x a Hx; simpl.
  - exists a. split; [done |]. split; [lia |]. by intros z u ?%elem_of_nil.
  - unfold pickAt at 2, pick. destruct (decide (id i = k)) as [Hi|Hi].
    + destruct (js_ge (timeOf Date_parse i) (timeOf Date_parse x)) eqn:Hge.
      * apply js_ge_Some in Hge as (u & a' & Hu & Ha' & Hle).
        rewrite Hx in Ha'. injection Ha' as <-.
        destruct (IH i u Hu) as (b & Hb & Hub & Hbound).
        exists b. split; [done |]. split; [lia |].
        intros z u' [->|Hz]%elem_of_cons Hzk Hzu; [| eauto].
        rewrite Hu in Hzu. injection Hzu as <-. done.
      * destruct (IH x a Hx) as (b & Hb & Hab & Hbound).
        exists b. split; [done |]. split; [done |].
        intros z u [->|Hz]%elem_of_cons Hzk Hzu; [| eauto].
        rewrite Hzu, Hx in Hge. simpl in Hge.
        apply Z.leb_gt in Hge. lia.
    + destruct (IH x a Hx) as (b & Hb & Hab & Hbound).
      exists b. split; [done |]. split; [done |].
      intros z u [->|Hz]%elem_of_cons Hzk Hzu; [congruence | eauto].
Qed.

Lemma fold_pickAt_stay k l x a :
  timeOf Date_parse x = Some a →
  (∀ z u, z ∈ l → id z = k → timeOf Date_parse z = Some u → u ≤ a) →
  timeOf Date_parse (fold_left (pickAt Date_parse k) l x) = Some a.
Proof.
  revert x. induction l as [|i l IH]; intros x Hx Hbound; simpl; [done |].
  assert (∀ z u, z ∈ l → id z = k → timeOf Date_parse z = Some u → u ≤ a)
    as Hbound' by (intros z u Hz; apply Hbound; by right).
  unfold pickAt at 2, pick. destruct (decide (id i = k)) as [Hi|Hi]; [| by apply IH].
  destruct (js_ge (timeOf Date_parse i) (timeOf Date_parse x)) eqn:Hge;
    [| by apply IH].
  apply js_ge_Some in Hge as (u & a' & Hu & Ha' & Hle).
  rewrite Hx in Ha'. injection Ha' as <-.
  apply IH; [| done]. rewrite Hu. f_equal.
  assert (u ≤ a) by (apply (Hbound i); [left | done | done]). lia.
Qed.

(** *** One key: a second run over the same client entities changes
    nothing *)

Lemma fold_clientAt_idem k l o :
  fold_left (clientAt Date_parse k) l (fold_left (clientAt Date_parse k) l o)
  = fold_left (clientAt Date_parse k) l o.
Proof.
  revert o. induction l as [|c l IH] using rev_ind; intros o; [done |].
  rewrite !fold_left_app. simpl.
  destruct (decide (id c = k)) as [Hc|Hc];
    [| rewrite !clientAt_other by done; apply IH].
  specialize (IH o).
  destruct (fold_left (clientAt Date_parse k) l o) as [e'|] eqn:Hrun.
  - (* the key held [e'] before [c] was merged into it *)
    rewrite !clientAt_same by done. f_equal.
    rewrite fold_clientAt_Some in IH. injection IH as IH.
    rewrite fold_clientAt_Some.
    set (r := mergeEntity Date_parse e' c).
    set (Y := with_isDeleted _ _).
    assert (isDeleted e' = fold_left (flagAt k) l (isDeleted e')) as Hflag
      by (rewrite <- IH at 1; done).
    assert (timeOf Date_parse (fold_left (pickAt Date_parse k) l e')
            = timeOf Date_parse e') as Htime
      by (rewrite <- IH at 2; done).
    assert (∀ d, with_isDeleted (fold_left (pickAt Date_parse k) l e') d
                 = with_isDeleted e' d) as Hfields
      by (intros d; rewrite <- IH at 2; done).
    unfold r. rewrite !mergeEntity_pick.
    assert (js_or (isDeleted c) (isDeleted Y)
            = js_or (isDeleted c) (isDeleted e')) as ->.
    { unfold Y, r. simpl. unfold js_or.
      destruct (truthy (isDeleted c)); [done | by rewrite <- Hflag]. }
    generalize (js_or (isDeleted c) (isDeleted e')). intros d.
    unfold pick.
    destruct (js_ge (timeOf Date_parse c) (timeOf Date_parse e')) eqn:Hge.
    + (* [c] won: it wins again *)
      apply js_ge_Some in Hge as (a & b & Ha & Hb & Hle).
      destruct (fold_pickAt_time k l e' b Hb) as (b' & Hb' & _ & Hbound).
      rewrite Htime, Hb in Hb'. injection Hb' as <-.
      assert (timeOf Date_parse Y = Some a) as ->.
      { unfold Y. rewrite timeOf_with_isDeleted.
        apply fold_pickAt_stay.
        - unfold r. rewrite mergeEntity_pick, timeOf_with_isDeleted.
          unfold pick. by rewrite Ha, Hb, (proj2 (js_ge_Some _ _)) by eauto 6.
        - intros z u Hz Hzk Hzu. specialize (Hbound z u Hz Hzk Hzu). lia. }
      by rewrite Ha, js_ge_refl.
    + (* [e'] stayed: it stays again *)
      assert (r = with_isDeleted e' (js_or (isDeleted c) (isDeleted e'))) as Hr.
      { unfold r. rewrite mergeEntity_pick. unfold pick. by rewrite Hge. }
      assert (∀ d', with_isDeleted Y d' = with_isDeleted e' d') as HY.
      { intros d'. unfold Y. rewrite with_isDeleted_twice, Hr.
        by rewrite fold_pickAt_with_isDeleted. }
      assert (timeOf Date_parse Y = timeOf Date_parse e') as ->.
      { rewrite <- (timeOf_with_isDeleted Date_parse Y PUndefined), HY. done. }
      rewrite Hge. apply HY.
  - (* the key was absent before [c] *)
    apply fold_clientAt_None in Hrun as [-> Hl].
    rewrite (clientAt_same k None) by done.
    rewrite fold_clientAt_notin by done.
    rewrite clientAt_same by done.
    by rewrite mergeEntity_self.
Qed.

(** *** The whole map *)

Lemma Map_set_fresh m k e : k ∉ Map_keys m → Map_set k e m = m ++ [(k, e)].
Proof.
  unfold Map_keys. induction m as [|[k0 v0] m IH]; csimpl; [done |].
  intros [Hne Hm]%not_elem_of_cons.
  rewrite decide_False by congruence. by rewrite IH.
Qed.

Lemma fold_seedStep_values m1 m2 :
  keyed m2 → NoDup (Map_keys (m1 ++ m2)) →
  fold_left seedStep (Map_values m2) m1 = m1 ++ m2.
Proof.
  unfold keyed, Map_values, Map_keys. revert m1.
  induction m2 as [|[k v] m2 IH]; intros m1 Hk Hnd; csimpl.
  - by rewrite app_nil_r.
  - apply Forall_cons in Hk as [Hv Hk]. simpl in Hv.
    assert (m1 ++ (k, v) :: m2 = (m1 ++ [(k, v)]) ++ m2) as Hassoc
      by by rewrite <- app_assoc.
    rewrite Hassoc in Hnd |- *.
    unfold seedStep at 2. rewrite Hv, Map_set_fresh; [by apply IH |].
    rewrite !fmap_app in Hnd.
    apply NoDup_app in Hnd as [Hnd _]. apply NoDup_app in Hnd as (_ & Hdis & _).
    intros Hin. apply (Hdis k Hin). csimpl. left.
Qed.

Lemma fold_clientStep_idem l m :
  NoDup (Map_keys m) →
  fold_left (clientStep Date_parse) l (fold_left (clientStep Date_parse) l m)
  = fold_left (clientStep Date_parse) l m.
Proof.
  intros Hnd. apply Map_ext.
  - rewrite !Map_keys_fold_clientStep. by do 2 apply fold_addKey_NoDup.
  - rewrite (Map_keys_fold_clientStep _ l (fold_left _ l m)).
    apply fold_addKey_absorbed. intros k Hk.
    rewrite Map_keys_fold_clientStep. apply fold_addKey_elem. by right.
  - intros k. rewrite !Map_get_fold_clientStep. apply fold_clientAt_idem.
Qed.

(** Reconciling the client list with the reconciled list gives the
    reconciled list back, whatever the two lists hold. *)
Lemma mergeLists_idem (S C : nullable (list entity)) :
  mergeLists Date_parse (Def (mergeLists Date_parse S C)) C
  = mergeLists Date_parse S C.
Proof.
  rewrite (mergeLists_finalMap _ S C).
  unfold mergeLists at 1. change (or_empty (Def ?l)) with l.
  rewrite (fold_seedStep_values []);
    [| apply finalMap_keyed | apply finalMap_NoDup].
  simpl. f_equal. unfold finalMap. apply fold_clientStep_idem.
  rewrite Map_keys_fold_seedStep. apply fold_addKey_NoDup, NoDup_nil_2.
Qed.
End RepeatedMerge.

(** ** The handlers *)

Section ServerFacts.
Context {Other Profile : Type}.
Context {casing : Casing}.
Variable Date_parse : string → option Z.
Variable upstream : string → payload Other Profile → response Other Profile.

Local Abbreviation bundle := (DataBundle Other Profile).
Local Abbreviation record := (user Other Profile).
Local Abbreviation store := (gmap string (user Other Profile)).

Lemma mergeBundle_idem (cloudData clientData : bundle) :
  mergeBundle Date_parse (mergeBundle Date_parse cloudData clientData) clientData
  = mergeBundle Date_parse cloudData clientData.
Proof.
  unfold mergeBundle. simpl.
  rewrite !mergeLists_idem, mergeLogs_idem. unfold resolveProfile.
  by rewrite js_or_absorb.
Qed.

Lemma getUser_string (u : string) (st : store) :
  getUser (PStr u) st = (Ok (st !! ("user:" +:+ toLowerCase u)), st).
Proof. reflexivity. Qed.

Lemma handleSyncMerge_found (u v : string) pw (b : bundle) (r : record) (st : store) :
  st !! ("user:" +:+ toLowerCase u) = Some r →
  username r = PStr v →
  let r' := with_data r (Def (mergeBundle Date_parse (cloudDataOf r) b)) in
  handleSyncMerge Date_parse
    {| req_username := PStr u; req_password := pw; req_data := Def b |} st
  = (Ok {| status := 200; resp_body := Data (data r') |},
     <["user:" +:+ toLowerCase v := r']>
       (<["user:" +:+ toLowerCase u := r']> st)).
Proof.
  intros Hr Hv. simpl. unfold handleSyncMerge. simpl.
  unfold mbind, M_bind. rewrite getUser_string, Hr. simpl.
  unfold setUser, mbind, M_bind. simpl. rewrite Hv. reflexivity.
Qed.
Lemma handleSyncMerge_again (u v : string) pw (b : bundle) (r : record) (st : store) :
  st !! ("user:" +:+ toLowerCase u) = Some r →
  username r = PStr v →
  let p := {| req_username := PStr u; req_password := pw; req_data := Def b |} in
  ∀ res st1, handleSyncMerge Date_parse p st = (res, st1) →
             handleSyncMerge Date_parse p st1 = (res, st1).
Proof.
  intros Hr Hv p res st1 Hfirst. subst p.
  rewrite (handleSyncMerge_found u v pw b r st Hr Hv) in Hfirst.
  injection Hfirst as <- <-.
  set (r' := with_data r _).
  assert ((<["user:" +:+ toLowerCase v := r']>
             (<["user:" +:+ toLowerCase u := r']> st))
            !! ("user:" +:+ toLowerCase u) = Some r') as Hr'.
  { destruct (decide ("user:" +:+ toLowerCase v = "user:" +:+ toLowerCase u))
      as [->|Hne].
    - apply lookup_insert_eq.
    - rewrite lookup_insert_ne by done. apply lookup_insert_eq. }
  rewrite (handleSyncMerge_found u v pw b r' _ Hr' Hv).
  assert (with_data r' (Def (mergeBundle Date_parse (cloudDataOf r') b)) = r')
    as ->.
  { unfold r', cloudDataOf, with_data. simpl. by rewrite mergeBundle_idem. }
  f_equal. apply map_eq. intros key.
  rewrite !lookup_insert. repeat case_decide; done.
Qed.

Lemma handleRegister_string (u : string) pw (d : nullable bundle) (st : store) :
  handleRegister
    {| req_username := PStr u; req_password := pw; req_data := d |} st
  = if negb (truthy (PStr u)) || negb (truthy pw)
    then (Ok {| status := 400; resp_body := Error "Required fields missing" |},
          st)
    else match st !! ("user:" +:+ toLowerCase u) with
         | Some _ =>
             (Ok {| status := 409; resp_body := Error "Username taken" |}, st)
         | None =>
             (Ok {| status := 201; resp_body := Message "Registered" |},
              <["user:" +:+ toLowerCase u :=
                  {| username := PStr u; password := pw;
                     data := Def emptyBundle |}]> st)
         end.
Proof.
  unfold handleRegister. cbn [req_username req_password].
  destruct (negb (truthy (PStr u)) || negb (truthy pw)); [reflexivity |].
  unfold mbind, M_bind. rewrite getUser_string.
  by destruct (st !! ("user:" +:+ toLowerCase u)).
Qed.

Lemma route_sync_merge (p : payload Other Profile) :
  route Date_parse upstream {| action := PStr "sync-merge"; req_payload := p |}
  = handleSyncMerge Date_parse p.
Proof. reflexivity. Qed.

Lemma route_auth_register (p : payload Other Profile) :
  route Date_parse upstream {| action := PStr "auth-register"; req_payload := p |}
  = handleRegister p.
Proof. reflexivity. Qed.
End ServerFacts.

(** ** The reconciler on any JSON [updatedAt] *)

Section RawFacts.
Context {Other : Type}.
Variable Date_parse : string → option Z.
Variable Array_toString : list json → result string.

Implicit Types (e i : entity Other) (m : list (prim * entity Other)) (k : prim).

Lemma rawTime_raw e :
  rawTime Date_parse Array_toString (raw e) = Ok (timeOf Date_parse e).
Proof.
  unfold rawTime, timeOf, raw, js_or. cbn [raw_updatedAt].
  destruct (updatedAt e) as [| | b | n | s]; try reflexivity.
  - by destruct b.
  - cbn. by destruct (n =? 0).
  - cbn. by destruct (String.eqb s "").
Qed.

Lemma mergeEntityRaw_raw e i :
  mergeEntityRaw Date_parse Array_toString (raw e) (raw i)
  = Ok (raw (mergeEntity Date_parse e i)).
Proof.
  unfold mergeEntityRaw. rewrite !rawTime_raw.
  rewrite mergeEntity_pick. unfold pick.
  by destruct (js_ge (timeOf Date_parse i) (timeOf Date_parse e)).
Qed.

Lemma Map_get_rawMap k m : Map_get k (rawMap m) = raw <$> Map_get k m.
Proof.
  unfold rawMap. induction m as [|[k0 v0] m IH]; csimpl; [done |].
  by destruct (decide (k0 = k)).
Qed.

Lemma Map_set_rawMap k e m : Map_set k (raw e) (rawMap m) = rawMap (Map_set k e m).
Proof.
  unfold rawMap. induction m as [|[k0 v0] m IH]; csimpl; [done |].
  destruct (decide (k0 = k)); csimpl; [done |]. by rewrite IH.
Qed.

Lemma clientStepRaw_raw m i :
  clientStepRaw Date_parse Array_toString (rawMap m) (raw i)
  = Ok (rawMap (clientStep Date_parse m i)).
Proof.
  unfold clientStepRaw, clientStep. cbn [raw raw_id].
  rewrite Map_get_rawMap.
  destruct (Map_get (id i) m) as [existing|]; csimpl.
  - fold (raw i). rewrite mergeEntityRaw_raw. by rewrite Map_set_rawMap.
  - fold (raw i). by rewrite Map_set_rawMap.
Qed.

Lemma forEachRaw_raw (l : list (entity Other)) m :
  forEachRaw Date_parse Array_toString (raw <$> l) (rawMap m)
  = Ok (rawMap (fold_left (clientStep Date_parse) l m)).
Proof.
  revert m. induction l as [|i l IH]; intros m; csimpl; [done |].
  by rewrite clientStepRaw_raw, IH.
Qed.

Lemma fold_seedStepRaw_raw (l : list (entity Other)) m :
  fold_left seedStepRaw (raw <$> l) (rawMap m) = rawMap (fold_left seedStep l m).
Proof.
  revert m. induction l as [|i l IH]; intros m; csimpl; [done |].
  unfold seedStepRaw at 2. cbn [raw raw_id]. fold (raw i).
  by rewrite Map_set_rawMap, IH.
Qed.

Lemma or_empty_rawList (l : nullable (list (entity Other))) :
  or_empty (rawList l) = raw <$> or_empty l.
Proof. by destruct l. Qed.

(** On entities whose [updatedAt] is absent or a primitive, the reconciler
    never throws and is [mergeLists]. *)
Lemma mergeListsRaw_raw (S C : nullable (list (entity Other))) :
  mergeListsRaw Date_parse Array_toString (rawList S) (rawList C)
  = Ok (raw <$> mergeLists Date_parse S C).
Proof.
  unfold mergeListsRaw, mergeLists. rewrite !or_empty_rawList.
  rewrite (fold_seedStepRaw_raw _ []), forEachRaw_raw.
  f_equal. unfold Map_values, rawMap. rewrite <- !list_fmap_compose.
  by apply list_fmap_ext.
Qed.

(** An object with an own [toString] property as the client's [updatedAt]
    makes the merge of two versions throw. *)
Lemma mergeEntityRaw_throws (existing i : rawEntity Other)
    (props : list (string * json)) (x : json) :
  raw_updatedAt i = Some (JObj props) → getProp "toString" props = Some x →
  mergeEntityRaw Date_parse Array_toString existing i
  = Throw (TypeError "Cannot convert object to primitive value").
Proof.
  intros Hi Hx. unfold mergeEntityRaw, rawTime. rewrite Hi.
  cbn. by rewrite Hx.
Qed.
End RawFacts.

(** * The claims *)

Section Claims.
Context {Other Profile : Type}.
Context {casing : Casing}.
Variable Date_parse : string → option Z.
Variable upstream : string → payload Other Profile → response Other Profile.

Local Abbreviation entity := (entity Other).
Local Abbreviation logEntry := (logEntry Other).
Local Abbreviation bundle := (DataBundle Other Profile).
Local Abbreviation record := (user Other Profile).
Local Abbreviation store := (gmap string (user Other Profile)).

(** C1.  The list that [mergeLists] returns holds exactly one entity for
    every id that occurs in the server list or in the client list, and no
    entity with any other id; the count does not look at [isDeleted], so a
    deleted entity is kept like any other.  This holds for all lists,
    also for lists that repeat an id. *)
Theorem mergeLists_each_id_once (S C : nullable (list entity)) (k : prim) :
  length (filter (λ e, id e = k) (mergeLists Date_parse S C))
  = (if decide (k ∈ idsOf S ++ idsOf C) then 1 else 0)%nat
  ∧ NoDup (id <$> mergeLists Date_parse S C).
Proof.
  split; [| apply mergeLists_NoDup].
  rewrite mergeLists_filter.
  destruct (decide (k ∈ idsOf S ++ idsOf C)) as [Hin|Hout].
  - apply (finalMap_elem Date_parse), Map_get_Some in Hin as [e ->].
    reflexivity.
  - rewrite <- (finalMap_elem Date_parse) in Hout.
    apply Map_get_None in Hout as ->. reflexivity.
Qed.

(** C2.  For an id that the server list and the client list both carry
    (each list without repeated ids), the entity stored for that id has an
    [isDeleted] flag that is true exactly when the flag of the server
    version or the flag of the client version is true, an absent flag
    counting as false; so a deletion on either side survives. *)
Theorem mergeLists_isDeleted_or (S C : nullable (list entity)) (s c : entity) :
  NoDup (idsOf S) → NoDup (idsOf C) →
  s ∈ or_empty S → c ∈ or_empty C → id s = id c →
  ∃ e, filter (λ x, id x = id c) (mergeLists Date_parse S C) = [e]
       ∧ truthy (isDeleted e)
         = truthy (isDeleted s) || truthy (isDeleted c)
       ∧ (truthy (isDeleted s) = true ∨ truthy (isDeleted c) = true →
          truthy (isDeleted e) = true).
Proof.
  intros HS HC Hs Hc Hid. exists (mergeEntity Date_parse s c).
  split; [by apply mergeLists_both |].
  rewrite mergeEntity_pick. simpl. rewrite js_or_truthy.
  split; [apply orb_comm |].
  intros [-> | ->]; [apply orb_true_r | reflexivity].
Qed.

(** C3.  For an id that both lists carry, the stored entity takes its
    fields from the client entity when the client's parsed time is greater
    than or equal to the server's, and from the server entity when it is
    smaller or when either time is [NaN]; only [isDeleted] is recomputed.
    When the two parsed times are the same number the client's fields are
    kept. *)
Theorem mergeLists_winner (S C : nullable (list entity)) (s c : entity) :
  NoDup (idsOf S) → NoDup (idsOf C) →
  s ∈ or_empty S → c ∈ or_empty C → id s = id c →
  ∃ e, filter (λ x, id x = id c) (mergeLists Date_parse S C) = [e]
       ∧ isDeleted e = js_or (isDeleted c) (isDeleted s)
       ∧ (∀ tc ts, timeOf Date_parse c = Some tc →
                   timeOf Date_parse s = Some ts → ts ≤ tc →
                   e = with_isDeleted c (js_or (isDeleted c) (isDeleted s)))
       ∧ (∀ tc ts, timeOf Date_parse c = Some tc →
                   timeOf Date_parse s = Some ts → tc < ts →
                   e = with_isDeleted s (js_or (isDeleted c) (isDeleted s)))
       ∧ (timeOf Date_parse c = None ∨ timeOf Date_parse s = None →
          e = with_isDeleted s (js_or (isDeleted c) (isDeleted s)))
       ∧ (∀ t, timeOf Date_parse c = Some t → timeOf Date_parse s = Some t →
               id e = id c ∧ updatedAt e = updatedAt c ∧ other e = other c).
Proof.
  intros HS HC Hs Hc Hid. exists (mergeEntity Date_parse s c).
  split; [by apply mergeLists_both |].
  rewrite mergeEntity_pick. unfold pick. split; [done |].
  split; [| split; [| split]].
  - intros tc ts -> -> Hle. simpl.
    by rewrite (proj2 (Z.leb_le ts tc)).
  - intros tc ts -> -> Hlt. simpl.
    by rewrite (proj2 (Z.leb_gt ts tc)).
  - intros [-> | ->]; [done |]. by destruct (timeOf Date_parse c).
  - intros t -> ->. by rewrite js_ge_refl.
Qed.


(** C5.  The merged study history is the server entries followed by the
    client entries, without every entry whose (cardId, date, rating) was
    seen earlier in that sequence.  In particular a one-entry server log
    merged with a client log that repeats the entry and adds a new one
    has two entries. *)
Theorem mergeLogs_first_occurrences
    (cloudLog clientLog : nullable (list logEntry)) :
  mergeLogs cloudLog clientLog
  = spec_mergeLogs (or_empty cloudLog) (or_empty clientLog)
  ∧ ∀ a a' b : logEntry,
      logKey a' = logKey a → logKey b ≠ logKey a →
      mergeLogs (Def [a]) (Def [a'; b]) = [a; b].
Proof.
  split; [apply mergeLogs_removeSeen |]. intros a a' b Ha' Hb.
  rewrite mergeLogs_removeSeen. simpl.
  rewrite Ha'. rewrite decide_True by left.
  rewrite decide_False; [done |].
  intros Hin%list_elem_of_singleton. done.
Qed.

(** C6.  The resolved profile is the client profile whenever the client
    sent one, and the server profile when the client profile is [null] or
    absent.  Nothing of the profiles is inspected: the function is
    parametric in the profile type. *)
Theorem resolveProfile_client_first
    (cloudProfile : nullable Profile) (cloudData clientData : bundle) :
  (∀ p : Profile, resolveProfile cloudProfile (Def p) = Def p)
  ∧ resolveProfile cloudProfile Null = cloudProfile
  ∧ resolveProfile cloudProfile Undefined = cloudProfile
  ∧ userProfile (mergeBundle Date_parse cloudData clientData)
    = resolveProfile (userProfile cloudData) (userProfile clientData).
Proof. repeat split. Qed.

(** C7.  A sync-merge for a username without a stored record answers 404
    and leaves the store as it was; no record appears for that
    username. *)
Theorem syncMerge_unknown_user
    (st : store) (u : string) (pw : prim) (d : nullable bundle) :
  st !! ("user:" +:+ toLowerCase u) = None →
  ∃ st',
    app_post_api_proxy Date_parse upstream
      {| action := PStr "sync-merge";
         req_payload := {| req_username := PStr u; req_password := pw;
                           req_data := d |} |} st
    = ({| status := 404; resp_body := Error "User not found" |}, st')
    ∧ st' = st
    ∧ st' !! ("user:" +:+ toLowerCase u) = None.
Proof.
  intros Hnone. exists st. split; [| done].
  unfold app_post_api_proxy. rewrite route_sync_merge.
  unfold handleSyncMerge. simpl. unfold mbind, M_bind.
  by rewrite getUser_string, Hnone.
Qed.
(** C8, as amended.  With username and password present, registering a
    username that, lower-cased, equals the lower-cased username of a stored
    record answers 409 and leaves the store as it was, whatever the casing,
    whenever the read of the store succeeds: always with the local store,
    and with the remote service when it answers the read with the record
    (no write is sent then).  With any password at all the local store is
    left as it was.  When the remote read fails, the record is taken for
    absent: the registration answers 201 and its write replaces the record.
    Registering a username that is not taken answers 201 and stores the new
    record. *)
Theorem register_conflict_or_created
    (st : store) (r : record) (u v : string) (pw : prim)
    (d : nullable bundle) :
  username r = PStr v → st !! ("user:" +:+ toLowerCase v) = Some r →
  toLowerCase u = toLowerCase v →
  truthy (PStr u) = true → truthy pw = true →
  let p := {| req_username := PStr u; req_password := pw; req_data := d |} in
  let newUser :=
    {| username := PStr u; password := pw; data := Def emptyBundle |} in
  let register pw' :=
    app_post_api_proxy Date_parse upstream
      {| action := PStr "auth-register";
         req_payload := {| req_username := PStr u; req_password := pw';
                           req_data := d |} |} in
  register pw st = ({| status := 409; resp_body := Error "Username taken" |}, st)
  ∧ (∀ pw', (register pw' st).2 = st)
  ∧ (∀ st0 : store,
       st0 !! ("user:" +:+ toLowerCase u) = None →
       register pw st0
       = ({| status := 201; resp_body := Message "Registered" |},
          <["user:" +:+ toLowerCase u := newUser]> st0))
  ∧ (∀ set, registerKV (GetResult (st !! ("user:" +:+ toLowerCase u))) set p
            = ({| status := 409; resp_body := Error "Username taken" |}, []))
  ∧ (∀ get, get = GetNotOk ∨ get = GetFailed ∨ get = GetResult None →
            registerKV get SetOk p
            = ({| status := 201; resp_body := Message "Registered" |},
               [("user:" +:+ toLowerCase u, newUser)])
            ∧ applyWrites (registerKV get SetOk p).2 st
                !! ("user:" +:+ toLowerCase v)
              = Some newUser).
Proof.
  intros Hv Hr Hcase Hu Hpw p newUser register. subst register. cbv beta.
  unfold app_post_api_proxy. rewrite !route_auth_register.
  split; [| split; [| split; [| split]]].
  - by rewrite handleRegister_string, Hu, Hpw, Hcase, Hr.
  - intros pw'. rewrite route_auth_register, handleRegister_string, Hcase, Hr.
    by destruct (negb (truthy (PStr u)) || negb (truthy pw')).
  - intros st0 Hfresh.
    by rewrite handleRegister_string, Hu, Hpw, Hfresh.
  - intros set. unfold registerKV, p. cbn [req_username req_password].
    rewrite Hu, Hpw, Hcase, Hr. reflexivity.
  - intros get Hget.
    assert (registerKV get SetOk p
            = ({| status := 201; resp_body := Message "Registered" |},
               [("user:" +:+ toLowerCase u, newUser)])) as ->.
    { unfold registerKV, p. cbn [req_username req_password].
      rewrite Hu, Hpw. by destruct Hget as [-> | [-> | ->]]. }
    split; [done |]. simpl. rewrite Hcase. apply lookup_insert_eq.
Qed.

(** C9.  For a stored user and a client bundle, a sync-merge answers 200
    with the merged bundle, and the same sync-merge sent again answers 200
    with the same bundle and leaves the store as the first call left it.
    The merged lists hold no id twice and the merged log no key twice. *)
Theorem syncMerge_twice
    (st : store) (u v : string) (pw : prim) (b : bundle) (r : record) :
  st !! ("user:" +:+ toLowerCase u) = Some r → username r = PStr v →
  let req :=
    {| action := PStr "sync-merge";
       req_payload := {| req_username := PStr u; req_password := pw;
                         req_data := Def b |} |} in
  ∃ merged st1,
    merged = mergeBundle Date_parse (cloudDataOf r) b
    ∧ app_post_api_proxy Date_parse upstream req st
      = ({| status := 200; resp_body := Data (Def merged) |}, st1)
    ∧ app_post_api_proxy Date_parse upstream req st1
      = ({| status := 200; resp_body := Data (Def merged) |}, st1)
    ∧ NoDup (idsOf (decks merged))
    ∧ NoDup (idsOf (cards merged))
    ∧ NoDup (idsOf (userAchievements merged))
    ∧ NoDup (logKey <$> or_empty (studyHistory merged)).
Proof.
  intros Hr Hv req. subst req.
  pose proof (handleSyncMerge_found Date_parse u v pw b r st Hr Hv) as Hfirst.
  pose proof (handleSyncMerge_again Date_parse u v pw b r st Hr Hv _ _ Hfirst)
    as Hsecond.
  eexists _, _. split; [reflexivity |].
  unfold app_post_api_proxy. rewrite !route_sync_merge.
  split; [by rewrite Hfirst |]. split; [by rewrite Hsecond |].
  repeat split; try apply mergeLists_NoDup. apply mergeLogs_NoDup.
Qed.

(** C10.  For a stored user, a sync-merge whose payload has no [data]
    throws while the merged bundle is assembled; the route catches the
    exception and answers 500 with the message as JSON error, and the
    store is as it was. *)
Theorem syncMerge_without_data
    (st : store) (u : string) (pw : prim) (r : record) :
  st !! ("user:" +:+ toLowerCase u) = Some r →
  let p := {| req_username := PStr u; req_password := pw;
              req_data := Undefined |} in
  ∃ msg,
    handleSyncMerge Date_parse p st = (Throw (TypeError msg), st)
    ∧ app_post_api_proxy Date_parse upstream
        {| action := PStr "sync-merge"; req_payload := p |} st
      = ({| status := 500; resp_body := Error msg |}, st).
Proof.
  intros Hr p. subst p. eexists.
  assert (∀ q, q = handleSyncMerge Date_parse
                     {| req_username := PStr u; req_password := pw;
                        req_data := Undefined |} st →
               q = (Throw (TypeError
                      "Cannot read properties of undefined (reading 'decks')"),
                    st)) as Hthrow.
  { intros q ->. unfold handleSyncMerge. simpl. unfold mbind, M_bind.
    by rewrite getUser_string, Hr. }
  split; [by apply Hthrow |].
  unfold app_post_api_proxy. rewrite route_sync_merge.
  by rewrite (Hthrow _ eq_refl).
Qed.
End Claims.

(** * The statements on concrete inputs *)

Section ClaimsOnInputs.
#[local] Existing Instance ascii_casing.

(** The tie-break example of the specification: same id, same timestamp,
    the client's extra field is kept. *)
Example mergeLists_tie_example :
  mergeLists iso_parse (Def [deck_server]) (Def [deck_client_tie])
  = [deck_client_tie].
Proof. reflexivity. Qed.

(** A deleted server version and a newer, live client version: the client
    supplies the fields, the deletion stays. *)
Example mergeLists_delete_example :
  mergeLists iso_parse (Def [deck_server_deleted])
             (Def [deck_client_newer; deck_client_other])
  = [with_isDeleted deck_client_newer (PBool true); deck_client_other].
Proof. reflexivity. Qed.

(** A time value out of the range of [Date] is [NaN] as well, whatever the
    parser. *)
Example Date_getTime_out_of_range (Date_parse : string → option Z) :
  Date_getTime Date_parse (PNum 10000000000000000) = None.
Proof. reflexivity. Qed.

(** The log example of the specification. *)
Example mergeLogs_example :
  mergeLogs (Def [log_a]) (Def [log_a; log_b]) = [log_a; log_b].
Proof. reflexivity. Qed.

(** The profile examples of the specification. *)
Example resolveProfile_example :
  resolveProfile (Def profile_dark) Null = Def profile_dark
  ∧ resolveProfile (Def profile_dark) (Def profile_light) = Def profile_light.
Proof. split; reflexivity. Qed.

Lemma mergeLists_isDeleted_or_witness :
  ∃ e, filter (λ x, id x = id deck_client_newer)
              (mergeLists iso_parse (Def [deck_server_deleted])
                          (Def [deck_client_newer; deck_client_other]))
       = [e]
       ∧ truthy (isDeleted e)
         = truthy (isDeleted deck_server_deleted)
           || truthy (isDeleted deck_client_newer)
       ∧ (truthy (isDeleted deck_server_deleted) = true
          ∨ truthy (isDeleted deck_client_newer) = true →
          truthy (isDeleted e) = true).
Proof.
  apply (mergeLists_isDeleted_or iso_parse (Def [deck_server_deleted])
           (Def [deck_client_newer; deck_client_other])).
  - apply NoDup_singleton.
  - apply NoDup_cons. split; [| apply NoDup_singleton].
    intros [=]%list_elem_of_singleton.
  - left.
  - left.
  - reflexivity.
Defined.

Lemma mergeLists_winner_witness :
  (∃ e, filter (λ x, id x = id deck_client_tie)
               (mergeLists iso_parse (Def [deck_server]) (Def [deck_client_tie]))
        = [e]
        ∧ e = with_isDeleted deck_client_tie PUndefined)
  ∧ (∃ e, filter (λ x, id x = id deck_client_older)
                 (mergeLists iso_parse (Def [deck_server])
                             (Def [deck_client_older]))
          = [e]
          ∧ e = with_isDeleted deck_server PUndefined).
Proof.
  split.
  - destruct (mergeLists_winner iso_parse (Def [deck_server])
                (Def [deck_client_tie]) deck_server deck_client_tie)
      as (e & He & _ & Hclient & _);
      [apply NoDup_singleton | apply NoDup_singleton | left | left
      | reflexivity |].
    exists e. split; [exact He |].
    apply (Hclient 1709296215250 1709296215250); [reflexivity | reflexivity | lia].
  - destruct (mergeLists_winner iso_parse (Def [deck_server])
                (Def [deck_client_older]) deck_server deck_client_older)
      as (e & He & _ & _ & Hserver & _);
      [apply NoDup_singleton | apply NoDup_singleton | left | left
      | reflexivity |].
    exists e. split; [exact He |].
    apply (Hserver 1704067200000 1709296215250); [reflexivity | reflexivity | lia].
Defined.


(** An object-valued [updatedAt] on the client side: the reconciler
    throws. *)
Example mergeListsRaw_object_stamp :
  mergeListsRaw iso_parse Array_toString_json (Def [raw deck_server])
                (Def [deck_client_object_stamp])
  = Throw (TypeError "Cannot convert object to primitive value").
Proof. reflexivity. Qed.


Lemma mergeLogs_first_occurrences_witness :
  mergeLogs (Def [log_a]) (Def [log_a; log_b]) = [log_a; log_b].
Proof.
  apply (proj2 (mergeLogs_first_occurrences (Def [log_a]) (Def [log_a; log_b]))
           log_a log_a log_b).
  - reflexivity.
  - discriminate.
Defined.

Lemma syncMerge_unknown_user_witness :
  ∃ st',
    app_post_api_proxy iso_parse upstream_down
      (request_of "sync-merge" (PStr "Bob") PUndefined (Def bundle_client))
      store_alice
    = ({| status := 404; resp_body := Error "User not found" |}, st')
    ∧ st' = store_alice
    ∧ st' !! ("user:" +:+ toLowerCase "Bob") = None.
Proof.
  apply (syncMerge_unknown_user iso_parse upstream_down store_alice "Bob").
  reflexivity.
Defined.

(** The claim C8 as the specification states it fails with the remote
    backend: the service holds a record for Alice, the read of a second
    registration does not answer ok, and the registration answers 201 and
    sends a write that replaces the record. *)
Lemma register_remote_read_failure_overwrites :
  let p : payload fields fields :=
    {| req_username := PStr "ALICE"; req_password := PStr "other";
       req_data := Undefined |} in
  store_alice !! ("user:" +:+ toLowerCase "ALICE") = Some alice
  ∧ (registerKV GetNotOk SetOk p).1
    = {| status := 201; resp_body := Message "Registered" |}
  ∧ applyWrites (registerKV GetNotOk SetOk p).2 store_alice
      !! ("user:" +:+ toLowerCase "ALICE")
    = Some {| username := PStr "ALICE"; password := PStr "other";
              data := Def emptyBundle |}
  ∧ applyWrites (registerKV GetNotOk SetOk p).2 store_alice
      !! ("user:" +:+ toLowerCase "ALICE")
    ≠ Some alice.
Proof.
  repeat split. intros [=].
Qed.

Lemma register_conflict_or_created_witness :
  let p : payload fields fields :=
    {| req_username := PStr "ALICE"; req_password := PStr "other";
       req_data := Undefined |} in
  let newUser : user fields fields :=
    {| username := PStr "ALICE"; password := PStr "other";
       data := Def emptyBundle |} in
  let register pw' :=
    app_post_api_proxy iso_parse upstream_down
      (request_of "auth-register" (PStr "ALICE") pw' Undefined) in
  register (PStr "other") store_alice
  = ({| status := 409; resp_body := Error "Username taken" |}, store_alice)
  ∧ (∀ pw', (register pw' store_alice).2 = store_alice)
  ∧ (∀ st0 : gmap string (user fields fields),
       st0 !! ("user:" +:+ toLowerCase "ALICE") = None →
       register (PStr "other") st0
       = ({| status := 201; resp_body := Message "Registered" |},
          <["user:" +:+ toLowerCase "ALICE" := newUser]> st0))
  ∧ (∀ set,
       registerKV
         (GetResult (store_alice !! ("user:" +:+ toLowerCase "ALICE"))) set p
       = ({| status := 409; resp_body := Error "Username taken" |}, []))
  ∧ (∀ get, get = GetNotOk ∨ get = GetFailed ∨ get = GetResult None →
            registerKV get SetOk p
            = ({| status := 201; resp_body := Message "Registered" |},
               [("user:" +:+ toLowerCase "ALICE", newUser)])
            ∧ applyWrites (registerKV get SetOk p).2 store_alice
                !! ("user:" +:+ toLowerCase "Alice")
              = Some newUser).
Proof.
  apply (register_conflict_or_created iso_parse upstream_down store_alice alice
           "ALICE" "Alice" (PStr "other") Undefined).
  - reflexivity.
  - reflexivity.
  - reflexivity.
  - reflexivity.
  - reflexivity.
Defined.

Lemma syncMerge_twice_witness :
  ∃ merged st1,
    merged = mergeBundle iso_parse (cloudDataOf alice) bundle_client
    ∧ app_post_api_proxy iso_parse upstream_down
        (request_of "sync-merge" (PStr "alice") PUndefined (Def bundle_client))
        store_alice
      = ({| status := 200; resp_body := Data (Def merged) |}, st1)
    ∧ app_post_api_proxy iso_parse upstream_down
        (request_of "sync-merge" (PStr "alice") PUndefined (Def bundle_client))
        st1
      = ({| status := 200; resp_body := Data (Def merged) |}, st1)
    ∧ NoDup (idsOf (decks merged))
    ∧ NoDup (idsOf (cards merged))
    ∧ NoDup (idsOf (userAchievements merged))
    ∧ NoDup (logKey <$> or_empty (studyHistory merged)).
Proof.
  apply (syncMerge_twice iso_parse upstream_down store_alice "alice" "Alice"
           PUndefined bundle_client alice).
  - reflexivity.
  - reflexivity.
Defined.

Lemma syncMerge_without_data_witness :
  ∃ msg,
    handleSyncMerge iso_parse
      {| req_username := PStr "Alice"; req_password := PStr "secret";
         req_data := Undefined |} store_alice
    = (Throw (TypeError msg), store_alice)
    ∧ app_post_api_proxy iso_parse upstream_down
        (request_of "sync-merge" (PStr "Alice") (PStr "secret") Undefined)
        store_alice
      = ({| status := 500; resp_body := Error msg |}, store_alice).
Proof.
  apply (syncMerge_without_data iso_parse upstream_down store_alice "Alice"
           (PStr "secret") alice).
  reflexivity.
Defined.

End ClaimsOnInputs.

(** * Further properties of the reconciler *)

Section ReconcilerOrder.
Context {Other : Type}.
Variable Date_parse : string → option Z.

Local Abbreviation entity := (entity Other).
Implicit Types (e i s c : entity) (l : list entity)
  (m : list (prim * entity)) (k : prim) (S C : nullable (list entity)).

Lemma filter_agree {A} (P Q : A → Prop) `{∀ x, Decision (P x)}
    `{∀ x, Decision (Q x)} (l : list A) :
  (∀ x, x ∈ l → P x ↔ Q x) → filter P l = filter Q l.
Proof.
  induction l as [|x l IH]; intros Hpq; [done |].
  rewrite !filter_cons.
  rewrite IH by (intros y Hy; apply Hpq; by right).
  destruct (decide (P x)) as [Hp|Hp], (decide (Q x)) as [Hq|Hq]; try done.
  - destruct Hq. apply Hpq; [left | done].
  - destruct Hp. apply Hpq; [left | done].
Qed.

Lemma fold_addKey_new (l ks : list prim) :
  NoDup l → fold_left addKey l ks = ks ++ filter (λ k, k ∉ ks) l.
Proof.
  revert ks. induction l as [|x l IH]; intros ks Hnd; simpl.
  - by rewrite app_nil_r.
  - apply NoDup_cons in Hnd as [Hx Hnd]. rewrite IH by done.
    unfold addKey. rewrite filter_cons.
    destruct (decide (x ∈ ks)) as [Hin|Hout].
    + by rewrite decide_False by (intros Hn; by apply Hn).
    + rewrite decide_True by done. rewrite <- app_assoc. simpl. do 2 f_equal.
      apply filter_agree. intros y Hy. rewrite elem_of_app, list_elem_of_singleton.
      split; [tauto |]. intros Hks [?| ->]; done.
Qed.

(** A run of [clientStep] over entities whose ids are new and distinct
    appends them as they come. *)
Lemma fold_clientStep_fresh l m :
  NoDup (Map_keys m ++ (id <$> l)) →
  fold_left (clientStep Date_parse) l m = m ++ ((λ e, (id e, e)) <$> l).
Proof.
  revert m. induction l as [|i l IH]; intros m Hnd; csimpl.
  - by rewrite app_nil_r.
  - assert (id i ∉ Map_keys m) as Hi.
    { apply NoDup_app in Hnd as (_ & Hdis & _). intros Hin.
      apply (Hdis _ Hin). left. }
    unfold clientStep at 2.
    rewrite (proj2 (Map_get_None (id i) m)) by done.
    rewrite Map_set_fresh by done.
    rewrite IH; [by rewrite <- app_assoc |].
    unfold Map_keys in *. rewrite fmap_app. csimpl.
    by rewrite <- app_assoc.
Qed.

Lemma fold_seedStep_fresh l m :
  NoDup (Map_keys m ++ (id <$> l)) →
  fold_left seedStep l m = m ++ ((λ e, (id e, e)) <$> l).
Proof.
  revert m. induction l as [|i l IH]; intros m Hnd; csimpl.
  - by rewrite app_nil_r.
  - assert (id i ∉ Map_keys m) as Hi.
    { apply NoDup_app in Hnd as (_ & Hdis & _). intros Hin.
      apply (Hdis _ Hin). left. }
    unfold seedStep at 2. rewrite Map_set_fresh by done.
    rewrite IH; [by rewrite <- app_assoc |].
    unfold Map_keys in *. rewrite fmap_app. csimpl.
    by rewrite <- app_assoc.
Qed.

Lemma Map_values_entries l : Map_values ((λ e, (id e, e)) <$> l) = l.
Proof.
  unfold Map_values. induction l as [|i l IH]; csimpl; [done |]. by f_equal.
Qed.

Lemma Map_keys_entries l : Map_keys ((λ e, (id e, e)) <$> l) = id <$> l.
Proof.
  unfold Map_keys. induction l as [|i l IH]; csimpl; [done |]. by f_equal.
Qed.

(** X1.  When no id occurs twice in the two lists taken together, the
    reconciled list is the server list followed by the client list, every
    entity exactly as it came. *)
Theorem mergeLists_disjoint (S C : nullable (list entity)) :
  NoDup (idsOf S ++ idsOf C) →
  mergeLists Date_parse S C = or_empty S ++ or_empty C.
Proof.
  intros Hnd. unfold mergeLists, idsOf in *.
  rewrite (fold_seedStep_fresh _ []);
    [| simpl; by apply NoDup_app in Hnd as (? & _ & _)].
  simpl. rewrite fold_clientStep_fresh by by rewrite Map_keys_entries.
  unfold Map_values. rewrite fmap_app.
  by rewrite !(Map_values_entries : ∀ l, ((λ e, (id e, e)) <$> l).*2 = l).
Qed.

(** X2.  An entity whose id only one of the two lists carries is in the
    reconciled list unchanged, with its flag and its timestamp as they
    were, and it is the only entity with that id. *)
Theorem mergeLists_one_sided (S C : nullable (list entity)) (e : entity) :
  NoDup (idsOf S) → NoDup (idsOf C) →
  (e ∈ or_empty S ∧ id e ∉ idsOf C) ∨ (e ∈ or_empty C ∧ id e ∉ idsOf S) →
  filter (λ x, id x = id e) (mergeLists Date_parse S C) = [e].
Proof.
  intros HS HC [[He Hid]|[He Hid]].
  - by apply mergeLists_server_only.
  - by apply mergeLists_client_only.
Qed.

(** X3.  With lists that repeat no id, the reconciled list holds the ids
    of the server list in the server's order, followed by the ids that only
    the client list has, in the client's order. *)
Theorem mergeLists_order (S C : nullable (list entity)) :
  NoDup (idsOf S) → NoDup (idsOf C) →
  id <$> mergeLists Date_parse S C
  = idsOf S ++ filter (λ k, k ∉ idsOf S) (idsOf C).
Proof.
  intros HS HC. rewrite mergeLists_ids, finalMap_keys.
  rewrite (fold_addKey_new (idsOf S) []) by done. simpl.
  match goal with
  | |- fold_left addKey _ ?f = _ => assert (f = idsOf S) as ->
  end.
  { clear HS. induction (idsOf S) as [|x l IH]; [done |].
    rewrite filter_cons_True by apply not_elem_of_nil. by rewrite IH. }
  by apply fold_addKey_new.
Qed.

(** X4.  For an id that both lists carry, the stored version is never
    older than the server version: when both times are numbers the stored
    time is the larger of the two, and when either [updatedAt] is present
    but gives no time ([NaN]) the server version's fields stay. *)
Theorem mergeLists_time_monotone (S C : nullable (list entity)) (s c : entity) :
  NoDup (idsOf S) → NoDup (idsOf C) →
  s ∈ or_empty S → c ∈ or_empty C → id s = id c →
  ∃ e, filter (λ x, id x = id c) (mergeLists Date_parse S C) = [e]
       ∧ (∀ a b, timeOf Date_parse s = Some a → timeOf Date_parse c = Some b →
                 timeOf Date_parse e = Some (Z.max a b))
       ∧ (timeOf Date_parse s = None ∨ timeOf Date_parse c = None →
          e = with_isDeleted s (js_or (isDeleted c) (isDeleted s))).
Proof.
  intros HS HC Hs Hc Hid. exists (mergeEntity Date_parse s c).
  split; [by apply mergeLists_both |].
  rewrite mergeEntity_pick. unfold pick. split.
  - intros a b Ha Hb. rewrite timeOf_with_isDeleted, Ha, Hb. simpl.
    destruct (Z.leb_spec a b).
    + rewrite Hb. f_equal. lia.
    + rewrite Ha. f_equal. lia.
  - intros [Hnan|Hnan]; rewrite Hnan; [| done].
    by destruct (timeOf Date_parse c).
Qed.
End ReconcilerOrder.

(** * Further properties of the study log *)

Section LogProperties.
Context {Other : Type}.

Local Abbreviation logEntry := (logEntry Other).
Implicit Types (v : logEntry) (l : list logEntry)
  (seen : list (prim * prim * prim)) (S C : nullable (list logEntry)).

Lemma removeSeen_sublist seen l : removeSeen seen l `sublist_of` l.
Proof.
  revert seen. induction l as [|x l IH]; intros seen; simpl; [constructor |].
  destruct (decide (logKey x ∈ seen)).
  - apply sublist_cons, IH.
  - apply sublist_skip, IH.
Qed.

Lemma removeSeen_unseen seen l :
  NoDup (logKey <$> l) → (∀ v, v ∈ l → logKey v ∉ seen) → removeSeen seen l = l.
Proof.
  revert seen. induction l as [|x l IH]; intros seen Hnd Hout; csimpl; [done |].
  csimpl in Hnd. apply NoDup_cons in Hnd as [Hx Hnd].
  rewrite decide_False by (apply Hout; left). f_equal.
  apply IH; [done |]. intros v Hv. apply not_elem_of_cons. split.
  - intros Heq. apply Hx. rewrite <- Heq. by apply list_elem_of_fmap_2.
  - apply Hout. by right.
Qed.

(** X5.  A stored log without repeated keys is a prefix of the merged log:
    merging never drops or reorders what is stored, it appends client
    entries, in the client's order, whose key the stored log does not
    have. *)
Theorem mergeLogs_appends (S C : nullable (list logEntry)) :
  NoDup (logKey <$> or_empty S) →
  ∃ extra, mergeLogs S C = or_empty S ++ extra
           ∧ extra `sublist_of` or_empty C
           ∧ ∀ v, v ∈ extra → logKey v ∉ logKey <$> or_empty S.
Proof.
  intros Hnd. exists (removeSeen ((logKey <$> or_empty S) ++ []) (or_empty C)).
  rewrite mergeLogs_removeSeen, removeSeen_app.
  rewrite removeSeen_unseen; [| done | intros; apply not_elem_of_nil].
  split; [done |]. split; [apply removeSeen_sublist |].
  intros v Hv Hin.
  apply (list_elem_of_fmap_2 logKey), removeSeen_fresh in Hv.
  apply Hv. by rewrite app_nil_r.
Qed.

(** X6.  Every entry of the merged log is an entry of one of the two logs,
    every key of the two logs is a key of the merged log, and the merged log
    is no longer than the two logs together. *)
Theorem mergeLogs_keys (S C : nullable (list logEntry)) :
  (∀ v, v ∈ mergeLogs S C → v ∈ or_empty S ++ or_empty C)
  ∧ (∀ k, k ∈ logKey <$> mergeLogs S C ↔
          k ∈ logKey <$> (or_empty S ++ or_empty C))
  ∧ (length (mergeLogs S C) ≤ length (or_empty S) + length (or_empty C))%nat.
Proof.
  rewrite mergeLogs_removeSeen.
  pose proof (removeSeen_sublist [] (or_empty S ++ or_empty C)) as Hsub.
  split; [| split].
  - intros v Hv. by eapply elem_of_sublist.
  - intros k. split.
    + intros (v & -> & Hv)%list_elem_of_fmap.
      apply list_elem_of_fmap_2. by eapply elem_of_sublist.
    + intros (v & -> & Hv)%list_elem_of_fmap.
      by destruct (removeSeen_covers [] _ v Hv) as [[]%elem_of_nil|?].
  - rewrite <- length_app. by apply sublist_length.
Qed.
End LogProperties.

(** * Further properties of the store and the handlers *)

Lemma userKey_inj (a b : string) : "user:" +:+ a = "user:" +:+ b ↔ a = b.
Proof. split; [simpl; by intros [= ?] | by intros ->]. Qed.

Section HandlerProperties.
Context {Other Profile : Type}.
Context {casing : Casing}.
Variable Date_parse : string → option Z.
Variable upstream : string → payload Other Profile → response Other Profile.

Local Abbreviation bundle := (DataBundle Other Profile).
Local Abbreviation record := (user Other Profile).
Local Abbreviation store := (gmap string (user Other Profile)).

Implicit Types (st : store) (r : record) (u v : string) (uname pw : prim)
  (d : nullable bundle) (p : payload Other Profile).

(** *** What the handlers compute on a string username *)

Lemma handleLogin_string u pw d st :
  handleLogin {| req_username := PStr u; req_password := pw; req_data := d |} st
  = (Ok (match st !! ("user:" +:+ toLowerCase u) with
         | Some r =>
             if strict_eq (password r) pw
             then {| status := 200; resp_body := Message "Logged in" |}
             else {| status := 401; resp_body := Error "Invalid credentials" |}
         | None => {| status := 401; resp_body := Error "Invalid credentials" |}
         end), st).
Proof.
  unfold handleLogin. cbn [req_username req_password].
  unfold mbind, M_bind. rewrite getUser_string.
  destruct (st !! ("user:" +:+ toLowerCase u)) as [r|]; [| done].
  by destruct (strict_eq (password r) pw).
Qed.

Lemma handleSyncLoad_string u pw d st :
  handleSyncLoad {| req_username := PStr u; req_password := pw; req_data := d |} st
  = (Ok {| status := 200;
           resp_body := Data (match st !! ("user:" +:+ toLowerCase u) with
                              | Some r => data r
                              | None => Null
                              end) |}, st).
Proof.
  unfold handleSyncLoad. cbn [req_username]. unfold mbind, M_bind.
  by rewrite getUser_string.
Qed.

Lemma route_auth_login p :
  route Date_parse upstream {| action := PStr "auth-login"; req_payload := p |}
  = handleLogin p.
Proof. reflexivity. Qed.

Lemma route_sync_load p :
  route Date_parse upstream {| action := PStr "sync-load"; req_payload := p |}
  = handleSyncLoad p.
Proof. reflexivity. Qed.

(** *** A username that is not a string *)

Lemma getUser_not_string uname st :
  (∀ s, uname ≠ PStr s) →
  ∃ msg, getUser (Other:=Other) (Profile:=Profile) uname st
         = (Throw (TypeError msg), st).
Proof.
  intros Hns. destruct uname as [| | b | n | s]; try (eexists; reflexivity).
  by destruct (Hns s).
Qed.

(** X8.  Registration answers 400 when the username or the password is
    missing or falsy (empty string, 0, false, null), and 500 when both are
    present but the username is not a string; the store is left as it was
    in both cases. *)
Theorem register_rejects uname pw d st :
  let res :=
    app_post_api_proxy Date_parse upstream
      {| action := PStr "auth-register";
         req_payload := {| req_username := uname; req_password := pw;
                           req_data := d |} |} st in
  (truthy uname = false ∨ truthy pw = false →
   res = ({| status := 400; resp_body := Error "Required fields missing" |}, st))
  ∧ (truthy uname = true → truthy pw = true → (∀ s, uname ≠ PStr s) →
     ∃ msg, res = ({| status := 500; resp_body := Error msg |}, st)).
Proof.
  intros res. subst res. unfold app_post_api_proxy.
  rewrite route_auth_register. unfold handleRegister.
  cbn [req_username req_password]. split.
  - intros [-> | ->]; [done |]. by rewrite orb_true_r.
  - intros -> -> Hns. simpl. unfold mbind, M_bind.
    destruct (getUser_not_string uname st Hns) as [msg ->]. by exists msg.
Qed.

(** X9.  A login, a sync-load or a sync-merge whose username is missing or
    not a string answers 500 and leaves the store as it was. *)
Theorem username_not_string (a : string) uname pw d st :
  a ∈ ["auth-login"; "sync-load"; "sync-merge"] →
  (∀ s, uname ≠ PStr s) →
  ∃ msg,
    app_post_api_proxy Date_parse upstream
      {| action := PStr a;
         req_payload := {| req_username := uname; req_password := pw;
                           req_data := d |} |} st
    = ({| status := 500; resp_body := Error msg |}, st).
Proof.
  intros Ha Hns. destruct (getUser_not_string uname st Hns) as [msg Hthrow].
  exists msg. unfold app_post_api_proxy.
  repeat (apply elem_of_cons in Ha as [->|Ha]); [| | | by apply elem_of_nil in Ha].
  - rewrite route_auth_login. unfold handleLogin, mbind, M_bind.
    cbn [req_username]. by rewrite Hthrow.
  - rewrite route_sync_load. unfold handleSyncLoad, mbind, M_bind.
    cbn [req_username]. by rewrite Hthrow.
  - rewrite route_sync_merge. unfold handleSyncMerge, mbind, M_bind.
    cbn [req_username]. by rewrite Hthrow.
Qed.

(** X10.  After [setUser] has stored a record, [getUser] returns that record
    for the record's username in any casing, returns what it returned
    before for every other username, and never changes the store. *)
Theorem setUser_getUser r v st :
  username r = PStr v →
  ∃ st', setUser r st = (Ok (), st')
         ∧ (∀ u, toLowerCase u = toLowerCase v →
                 getUser (PStr u) st' = (Ok (Some r), st'))
         ∧ (∀ u, toLowerCase u ≠ toLowerCase v →
                 getUser (PStr u) st' = ((getUser (PStr u) st).1, st')).
Proof.
  intros Hv. eexists. split; [| split].
  - unfold setUser, mbind, M_bind. rewrite Hv. reflexivity.
  - intros u Hu. rewrite getUser_string, Hu. by rewrite lookup_insert_eq.
  - intros u Hu. rewrite !getUser_string. simpl.
    rewrite lookup_insert_ne; [done |]. by rewrite userKey_inj.
Qed.

(** X11.  After a registration that succeeded, a login with the same
    username in any casing answers 200 when the password is the registered
    one and 401 when it is any other value; it does not change the store. *)
Theorem register_then_login u u' pw pw' d d' st :
  st !! ("user:" +:+ toLowerCase u) = None →
  truthy (PStr u) = true → truthy pw = true →
  toLowerCase u' = toLowerCase u →
  ∃ st1,
    app_post_api_proxy Date_parse upstream
      {| action := PStr "auth-register";
         req_payload := {| req_username := PStr u; req_password := pw;
                           req_data := d |} |} st
    = ({| status := 201; resp_body := Message "Registered" |}, st1)
    ∧ app_post_api_proxy Date_parse upstream
        {| action := PStr "auth-login";
           req_payload := {| req_username := PStr u'; req_password := pw';
                             req_data := d' |} |} st1
      = (if decide (pw' = pw)
         then {| status := 200; resp_body := Message "Logged in" |}
         else {| status := 401; resp_body := Error "Invalid credentials" |},
         st1).
Proof.
  intros Hfresh Hu Hpw Hcase. eexists. unfold app_post_api_proxy.
  rewrite route_auth_register, handleRegister_string, Hu, Hpw, Hfresh.
  split; [reflexivity |].
  rewrite route_auth_login, handleLogin_string, Hcase, lookup_insert_eq.
  cbn [password]. destruct (decide (pw' = pw)) as [->|Hne].
  - by rewrite (proj2 (strict_eq_spec pw pw)).
  - destruct (strict_eq pw pw') eqn:E; [| done].
    apply strict_eq_spec in E. congruence.
Qed.

(** X12.  A login with a string username never changes the store; it
    answers 200 exactly when a record is stored under the username's key
    whose password is the very value sent ([===]), and 401 otherwise. *)
Theorem login_outcome u pw d st :
  ∃ res,
    app_post_api_proxy Date_parse upstream
      {| action := PStr "auth-login";
         req_payload := {| req_username := PStr u; req_password := pw;
                           req_data := d |} |} st
    = (res, st)
    ∧ (status res = 200 ∨ status res = 401)
    ∧ (status res = 200 ↔
       ∃ r, st !! ("user:" +:+ toLowerCase u) = Some r ∧ password r = pw).
Proof.
  eexists. unfold app_post_api_proxy.
  rewrite route_auth_login, handleLogin_string. split; [reflexivity |].
  destruct (st !! ("user:" +:+ toLowerCase u)) as [r|].
  - destruct (strict_eq (password r) pw) eqn:E; simpl.
    + apply strict_eq_spec in E. split; [by left |]. split; [eauto | done].
    + split; [by right |]. split; [done |].
      intros (r' & [= <-] & Hpw). apply strict_eq_spec in Hpw. congruence.
  - simpl. split; [by right |]. split; [done | by intros (r' & ? & _)].
Qed.
(** *** Which requests write to the store *)

Lemma proxy_store (req : request Other Profile) st :
  (app_post_api_proxy Date_parse upstream req st).2
  = (route Date_parse upstream req st).2.
Proof.
  unfold app_post_api_proxy.
  by destruct (route Date_parse upstream req st) as [[res|e] st'].
Qed.

Lemma handleLogin_store p st : (handleLogin p st).2 = st.
Proof.
  destruct p as [uname pw d]. destruct uname; try reflexivity.
  by rewrite handleLogin_string.
Qed.

Lemma handleSyncLoad_store p st : (handleSyncLoad p st).2 = st.
Proof.
  destruct p as [uname pw d]. by destruct uname.
Qed.

Lemma route_store (req : request Other Profile) st :
  (route Date_parse upstream req st).2 = st
  ∨ (action req = PStr "auth-register"
     ∧ (route Date_parse upstream req st).2 = (handleRegister (req_payload req) st).2)
  ∨ (action req = PStr "sync-merge"
     ∧ (route Date_parse upstream req st).2
       = (handleSyncMerge Date_parse (req_payload req) st).2).
Proof.
  destruct req as [act p]. unfold route. cbn [action req_payload].
  destruct act as [| | b | n | a]; try (by left).
  destruct (String.eqb a "ping"); [by left |].
  destruct (String.eqb a "gemini-generate" || String.eqb a "dictionary-free"
            || String.eqb a "dictionary-mw" || String.eqb a "fetch-audio");
    [by left |].
  destruct (String.eqb_spec a "auth-register") as [->|_]; [right; by left |].
  destruct (String.eqb a "auth-login"); [left; apply handleLogin_store |].
  destruct (String.eqb a "sync-load"); [left; apply handleSyncLoad_store |].
  destruct (String.eqb_spec a "sync-merge") as [->|_]; [right; by right |].
  destruct (String.eqb a "ping-free-dict" || String.eqb a "ping-mw"); by left.
Qed.

(** X13.  Every request other than a registration and a sync-merge leaves
    the store as it was, whatever it carries; and an action that is none of
    the eleven the router knows answers 400. *)
Theorem other_actions_read_only (req : request Other Profile) st :
  action req ≠ PStr "auth-register" → action req ≠ PStr "sync-merge" →
  (app_post_api_proxy Date_parse upstream req st).2 = st
  ∧ ((∀ a, action req = PStr a →
           a ∉ ["ping"; "gemini-generate"; "dictionary-free"; "dictionary-mw";
                "fetch-audio"; "auth-register"; "auth-login"; "sync-load";
                "sync-merge"; "ping-free-dict"; "ping-mw"]) →
     (app_post_api_proxy Date_parse upstream req st).1
     = {| status := 400; resp_body := Error "Invalid action" |}).
Proof.
  intros Hreg Hmerge. split.
  - rewrite proxy_store.
    destruct (route_store req st) as [?|[[? _]|[? _]]]; done.
  - intros Hunknown. destruct req as [act p]. cbn [action] in *.
    unfold app_post_api_proxy, route. cbn [action req_payload].
    destruct act as [| | b | n | a]; try reflexivity.
    specialize (Hunknown a eq_refl).
    repeat match goal with
    | |- context [String.eqb a ?s] =>
        destruct (String.eqb_spec a s) as [->|_];
        [exfalso; apply Hunknown; set_solver |]
    end.
    reflexivity.
Qed.

(** *** The shape of the store is kept *)

Lemma storeKeyed_insert st key r :
  storeKeyed st → getUserKey (username r) = Ok key →
  storeKeyed (<[key := r]> st).
Proof.
  intros Hst Hr k' r'. rewrite lookup_insert.
  case_decide as Hk; [intros [= <-]; by subst | apply Hst].
Qed.

Lemma storeKeyed_username st u r :
  storeKeyed st → st !! ("user:" +:+ toLowerCase u) = Some r →
  ∃ v, username r = PStr v ∧ toLowerCase v = toLowerCase u.
Proof.
  intros Hst Hr. specialize (Hst _ _ Hr).
  destruct (username r) as [| | b | n | v]; try discriminate.
  exists v. split; [done |]. simpl in Hst. by injection Hst.
Qed.

Lemma handleRegister_keyed p st :
  storeKeyed st → storeKeyed (handleRegister p st).2.
Proof.
  intros Hst. destruct p as [uname pw d].
  destruct uname as [| | b | n | u].
  - done.
  - done.
  - unfold handleRegister. cbn [req_username req_password].
    by destruct (negb (truthy (PBool b)) || negb (truthy pw)).
  - unfold handleRegister. cbn [req_username req_password].
    by destruct (negb (truthy (PNum n)) || negb (truthy pw)).
  - rewrite handleRegister_string.
    destruct (negb (truthy (PStr u)) || negb (truthy pw)); [done |].
    destruct (st !! ("user:" +:+ toLowerCase u)); [done |].
    by apply storeKeyed_insert.
Qed.

Lemma handleSyncMerge_keyed p st :
  storeKeyed st → storeKeyed (handleSyncMerge Date_parse p st).2.
Proof.
  intros Hst. destruct p as [uname pw d].
  destruct uname as [| | b | n | u]; try done.
  destruct (st !! ("user:" +:+ toLowerCase u)) as [r|] eqn:Hr.
  - destruct (storeKeyed_username st u r Hst Hr) as (v & Hv & Hcase).
    destruct d as [| | b].
    + unfold handleSyncMerge, mbind, M_bind. cbn [req_username req_data].
      by rewrite getUser_string, Hr.
    + unfold handleSyncMerge, mbind, M_bind. cbn [req_username req_data].
      by rewrite getUser_string, Hr.
    + rewrite (handleSyncMerge_found Date_parse u v pw b r st Hr Hv). simpl.
      apply storeKeyed_insert; [apply storeKeyed_insert; [done |] |];
        simpl; rewrite Hv; simpl; by rewrite ?Hcase.
  - unfold handleSyncMerge, mbind, M_bind. cbn [req_username req_data].
    by rewrite getUser_string, Hr.
Qed.

Lemma proxy_keyed (req : request Other Profile) st :
  storeKeyed st → storeKeyed (app_post_api_proxy Date_parse upstream req st).2.
Proof.
  intros Hst. rewrite proxy_store.
  destruct (route_store req st) as [->|[[_ ->]|[_ ->]]];
    [done | by apply handleRegister_keyed | by apply handleSyncMerge_keyed].
Qed.

(** X14.  Whatever requests are served, starting from the empty store, every
    record of the store sits under the key [user:<lowercased username>] of
    its own username, and that username is a string. *)
Theorem serve_keeps_store_keyed (requests : list (request Other Profile)) :
  let st := serve Date_parse upstream requests ∅ in
  storeKeyed st
  ∧ ∀ key r, st !! key = Some r →
             ∃ v, username r = PStr v ∧ key = "user:" +:+ toLowerCase v.
Proof.
  assert (∀ st0, storeKeyed st0 →
                 storeKeyed (serve Date_parse upstream requests st0)) as Hserve.
  { unfold serve. induction requests as [|req reqs IH]; intros st0 H0; [done |].
    simpl. by apply IH, proxy_keyed. }
  assert (storeKeyed (serve Date_parse upstream requests ∅)) as Hst.
  { apply Hserve. intros key r. by rewrite lookup_empty. }
  split; [exact Hst |]. intros key r Hr. specialize (Hst _ _ Hr).
  destruct (username r) as [| | b | n | v]; try discriminate.
  exists v. split; [done |]. simpl in Hst. by injection Hst.
Qed.

(** X15.  In a store of that shape, a sync-merge for a stored user with a
    client bundle rewrites the record under that user's key and nothing
    else: the username and the password of the record stay, only its data
    becomes the merged bundle, and every other key keeps its record. *)
Theorem syncMerge_frame u pw (b : bundle) r st :
  storeKeyed st → st !! ("user:" +:+ toLowerCase u) = Some r →
  let st' :=
    (app_post_api_proxy Date_parse upstream
       {| action := PStr "sync-merge";
          req_payload := {| req_username := PStr u; req_password := pw;
                            req_data := Def b |} |} st).2 in
  st' = <["user:" +:+ toLowerCase u :=
            {| username := username r; password := password r;
               data := Def (mergeBundle Date_parse (cloudDataOf r) b) |}]> st
  ∧ ∀ key, key ≠ "user:" +:+ toLowerCase u → st' !! key = st !! key.
Proof.
  intros Hst Hr st'.
  destruct (storeKeyed_username st u r Hst Hr) as (v & Hv & Hcase).
  assert (st' = <["user:" +:+ toLowerCase u :=
                    with_data r (Def (mergeBundle Date_parse (cloudDataOf r) b))]> st)
    as ->.
  { unfold st'. rewrite proxy_store, route_sync_merge.
    rewrite (handleSyncMerge_found Date_parse u v pw b r st Hr Hv). simpl.
    by rewrite Hcase, insert_insert_eq. }
  split; [done |]. intros key Hkey. by rewrite lookup_insert_ne.
Qed.

(** X16.  After a sync-merge that succeeded, a sync-load for the same
    username in any casing answers 200 with exactly the bundle the
    sync-merge returned, and changes nothing. *)
Theorem syncMerge_then_load u u' v pw pw' (b : bundle) d r st :
  st !! ("user:" +:+ toLowerCase u) = Some r → username r = PStr v →
  toLowerCase u' = toLowerCase u →
  ∃ merged st1,
    app_post_api_proxy Date_parse upstream
      {| action := PStr "sync-merge";
         req_payload := {| req_username := PStr u; req_password := pw;
                           req_data := Def b |} |} st
    = ({| status := 200; resp_body := Data (Def merged) |}, st1)
    ∧ app_post_api_proxy Date_parse upstream
        {| action := PStr "sync-load";
           req_payload := {| req_username := PStr u'; req_password := pw';
                             req_data := d |} |} st1
      = ({| status := 200; resp_body := Data (Def merged) |}, st1).
Proof.
  intros Hr Hv Hcase. eexists _, _. unfold app_post_api_proxy.
  rewrite route_sync_merge.
  rewrite (handleSyncMerge_found Date_parse u v pw b r st Hr Hv).
  split; [reflexivity |].
  rewrite route_sync_load, handleSyncLoad_string, Hcase.
  destruct (decide ("user:" +:+ toLowerCase v = "user:" +:+ toLowerCase u))
    as [->|Hne].
  - by rewrite lookup_insert_eq.
  - rewrite lookup_insert_ne by done. by rewrite lookup_insert_eq.
Qed.

(** X17.  The first sync-merge after a registration, with a client bundle
    whose lists repeat no id and whose log repeats no key, stores and
    returns the client's lists and log as they came; the profile is the
    client's, or [null] when the client sent none. *)
Theorem register_then_first_sync u pw pw' (b : bundle) d st :
  st !! ("user:" +:+ toLowerCase u) = None →
  truthy (PStr u) = true → truthy pw = true →
  NoDup (idsOf (decks b)) → NoDup (idsOf (cards b)) →
  NoDup (idsOf (userAchievements b)) →
  NoDup (logKey <$> or_empty (studyHistory b)) →
  ∃ st1 st2,
    app_post_api_proxy Date_parse upstream
      {| action := PStr "auth-register";
         req_payload := {| req_username := PStr u; req_password := pw;
                           req_data := d |} |} st
    = ({| status := 201; resp_body := Message "Registered" |}, st1)
    ∧ app_post_api_proxy Date_parse upstream
        {| action := PStr "sync-merge";
           req_payload := {| req_username := PStr u; req_password := pw';
                             req_data := Def b |} |} st1
      = ({| status := 200;
            resp_body :=
              Data (Def {| decks := Def (or_empty (decks b));
                           cards := Def (or_empty (cards b));
                           studyHistory := Def (or_empty (studyHistory b));
                           userProfile := match userProfile b with
                                          | Def profile => Def profile
                                          | _ => Null
                                          end;
                           userAchievements :=
                             Def (or_empty (userAchievements b)) |}) |},
         st2).
Proof.
  intros Hfresh Hu Hpw Hdecks Hcards Hach Hlog. eexists _, _.
  unfold app_post_api_proxy.
  rewrite route_auth_register, handleRegister_string, Hu, Hpw, Hfresh.
  split; [reflexivity |]. simpl negb. simpl orb. cbv iota.
  rewrite route_sync_merge.
  erewrite (handleSyncMerge_found Date_parse u u pw' b);
    [| apply lookup_insert_eq | reflexivity].
  do 3 f_equal. unfold cloudDataOf, with_data, mergeBundle. simpl.
  rewrite !mergeLists_disjoint by done.
  rewrite mergeLogs_removeSeen, removeSeen_unseen;
    [| done | intros; apply not_elem_of_nil].
  f_equal. by destruct (userProfile b).
Qed.
End HandlerProperties.

(** * Properties of the language-model handler *)

Lemma getProp_app (name : string) (l1 l2 : list (string * json)) :
  getProp name (l1 ++ l2)
  = match getProp name l1 with
    | Some v => Some v
    | None => getProp name l2
    end.
Proof.
  induction l1 as [|[k v] l1 IH]; simpl; [done |].
  by destruct (String.eqb k name).
Qed.

Lemma getProp_spreadIf (name k : string) (v : option json) :
  getProp k (spreadIf name v)
  = if String.eqb name k then (if truthy v then v else None) else None.
Proof.
  unfold spreadIf. destruct v as [x|]; simpl.
  - unfold truthy, option_truthy. destruct (truthy x); simpl.
    + by destruct (String.eqb name k).
    + by destruct (String.eqb name k).
  - by destruct (String.eqb name k).
Qed.

Lemma restConfig_elem (config : list (string * json)) (k : string) (v : json) :
  (k, v) ∈ restConfig config ↔ (k, v) ∈ config ∧ k ∉ specialKeys.
Proof. unfold restConfig. rewrite list_elem_of_filter. simpl. tauto. Qed.

(** X18.  The upstream always gets an array of contents: an array passes
    through as it is, so normalising twice changes nothing; anything else
    becomes an array of one element, and a bare string becomes one entry
    with that string as its only text part. *)
Theorem finalContents_array (contents : option json) :
  ∃ items,
    finalContents contents = JArr items
    ∧ (isArray contents = true → contents = Some (JArr items))
    ∧ (isArray contents = false → length items = 1%nat)
    ∧ finalContents (Some (finalContents contents)) = finalContents contents
    ∧ (∀ s, contents = Some (JStr s) →
            items = [JObj [("parts", JArr [JObj [("text", JStr s)]])]]).
Proof.
  assert (∀ c : json, typeof_object (Some c) = false →
            finalContents (Some c)
            = JArr [JObj [("parts", JArr [JObj [("text", c)]])]]) as Hwrap.
  { intros c Hc. destruct c; try discriminate; unfold finalContents;
      cbn [typeof_object]; by rewrite andb_false_r. }
  assert (∃ items, finalContents contents = JArr items
                   ∧ (isArray contents = true → contents = Some (JArr items))
                   ∧ (isArray contents = false → length items = 1%nat)
                   ∧ (∀ s, contents = Some (JStr s) →
                           items = [JObj [("parts",
                                           JArr [JObj [("text", JStr s)]])]]))
    as (items & Hitems & Harr & Hone & Hstr).
  { destruct contents as [c|]; [destruct c as [| b | n | s | items | props] |].
    - eexists. by repeat split.
    - eexists. split; [by apply Hwrap |]. by repeat split.
    - eexists. split; [by apply Hwrap |]. by repeat split.
    - eexists. split; [by apply Hwrap |]. repeat split; try done.
      by intros ? [= <-].
    - exists items. by repeat split.
    - unfold finalContents.
      cbn [truthy option_truthy json_truthy typeof_object andb].
      destruct (truthy (prop "parts" (Some (JObj props))));
        eexists; by repeat split.
    - eexists. by repeat split. }
  exists items. repeat split; try done. by rewrite Hitems.
Qed.

(** X19.  In the body sent upstream, [contents] is the normalised contents;
    each of [systemInstruction], [responseModalities] and [speechConfig] is
    at the top level when its value in [config] is truthy and nowhere when
    it is falsy or absent; every other property of [config], and nothing
    else, is under [generationConfig], which is left out when there is no
    such property.  Without a [config] the body has [contents] only. *)
Theorem googleApiBody_shape (contents : option json)
    (config : list (string * json)) :
  googleApiBody contents None = JObj [("contents", finalContents contents)]
  ∧ ∃ props,
      googleApiBody contents (Some config) = JObj props
      ∧ getProp "contents" props = Some (finalContents contents)
      ∧ (∀ k, k ∈ specialKeys →
              getProp k props
              = if truthy (getProp k config) then getProp k config else None)
      ∧ getProp "generationConfig" props
        = (if decide (restConfig config = []) then None
           else Some (JObj (restConfig config)))
      ∧ (∀ k v, (k, v) ∈ restConfig config ↔ (k, v) ∈ config ∧ k ∉ specialKeys).
Proof.
  split; [reflexivity |]. eexists. split; [reflexivity |].
  split; [reflexivity |]. split; [| split; [| apply restConfig_elem]].
  - intros k Hk. unfold specialKeys in Hk.
    repeat (apply elem_of_cons in Hk as [->|Hk]); [| | | by apply elem_of_nil in Hk];
      cbn [app getProp String.eqb Ascii.eqb Bool.eqb];
      rewrite !getProp_app, !getProp_spreadIf;
      cbn [String.eqb Ascii.eqb Bool.eqb];
      repeat match goal with
      | |- context [truthy ?v] => destruct (truthy v) eqn:?
      end; try done;
      repeat match goal with
      | |- context [getProp ?k config] => destruct (getProp k config)
      end; try done;
      by destruct (0 <? Z.of_nat (length (restConfig config))).
  - cbn [app getProp String.eqb Ascii.eqb Bool.eqb].
    rewrite !getProp_app, !getProp_spreadIf.
    cbn [String.eqb Ascii.eqb Bool.eqb].
    destruct (restConfig config) as [|kv rest].
    + by rewrite decide_True.
    + rewrite decide_False by done. reflexivity.
Qed.

(** X20.  The handler answers with an adapted body only when the upstream
    answered ok with a JSON body other than [null]; the status is then 200
    and the text is never missing: it is the first candidate's first text
    part when that is truthy and the empty string otherwise.  An upstream
    answer that is not ok is relayed with the upstream's status, and a
    failed call answers 500. *)
Theorem handleGeminiGenerate_outcome (model : option string)
    (contents : option json) (config : option (list (string * json)))
    (apiKey : option string) (fetch : string → json → outcome fetchResponse) :
  let endpoint :=
    "https://generativelanguage.googleapis.com/v1beta/models/"
    +:+ template model +:+ ":generateContent" in
  let url := endpoint +:+ "?key=" +:+ template apiKey in
  let called := fetch url (googleApiBody contents config) in
  let res := handleGeminiGenerate model contents config apiKey fetch in
  (∀ t c, proxy_body res = Adapted t c →
          proxy_status res = 200
          ∧ (t = JStr "" ∨ truthy t = true)
          ∧ ∃ r data, called = Resolved r ∧ ok r = true
                      ∧ json_body r = Resolved data ∧ data ≠ JNull
                      ∧ t = adaptedText data
                      ∧ c = prop "candidates" (Some data))
  ∧ (∀ r errorText, called = Resolved r → ok r = false →
                    text r = Resolved errorText →
                    res = {| proxy_status := upstream_status r;
                             proxy_body :=
                               ErrorDetails "Google API Error" errorText |})
  ∧ (∀ msg, called = Rejected msg →
            res = {| proxy_status := 500;
                     proxy_body := ErrorDetails "Internal server error" msg |}).
Proof.
  intros endpoint url called res.
  assert (∀ data, adaptedText data = JStr "" ∨ truthy (adaptedText data) = true)
    as Htext.
  { intros data. unfold adaptedText.
    destruct (prop "text" _) as [v|]; [| by left].
    destruct (truthy v) eqn:E; [by right | by left]. }
  assert (res = match called with
                | Rejected msg =>
                    {| proxy_status := 500;
                       proxy_body := ErrorDetails "Internal server error" msg |}
                | Resolved r =>
                    if negb (ok r)
                    then match text r with
                         | Resolved errorText =>
                             {| proxy_status := upstream_status r;
                                proxy_body :=
                                  ErrorDetails "Google API Error" errorText |}
                         | Rejected msg =>
                             {| proxy_status := 500;
                                proxy_body :=
                                  ErrorDetails "Internal server error" msg |}
                         end
                    else match json_body r with
                         | Resolved JNull =>
                             {| proxy_status := 500;
                                proxy_body :=
                                  ErrorDetails "Internal server error"
                                    "Cannot read properties of null (reading 'candidates')" |}
                         | Resolved data =>
                             {| proxy_status := 200;
                                proxy_body :=
                                  Adapted (adaptedText data)
                                          (prop "candidates" (Some data)) |}
                         | Rejected msg =>
                             {| proxy_status := 500;
                                proxy_body :=
                                  ErrorDetails "Internal server error" msg |}
                         end
                end) as Hres.
  { reflexivity. }
  split; [| split].
  - intros t c. rewrite Hres.
    destruct called as [r|msg]; [| done].
    destruct (ok r) eqn:Hok; simpl; [| by destruct (text r)].
    destruct (json_body r) as [data|msg] eqn:Hjson; [| done].
    destruct data; try done; intros [= <- <-];
      (split; [done |]; split; [apply Htext |]; eexists _, _; by repeat split).
  - intros r errorText Hcalled Hok Htxt. by rewrite Hres, Hcalled, Hok, Htxt.
  - intros msg Hcalled. by rewrite Hres, Hcalled.
Qed.

(** * The further properties on concrete inputs *)

Section PropertiesOnInputs.
#[local] Existing Instance ascii_casing.

Lemma mergeLists_disjoint_witness :
  mergeLists iso_parse (Def [deck_server_deleted; deck_server_other])
             (Def [deck_client_other])
  = [deck_server_deleted; deck_server_other] ++ [deck_client_other].
Proof.
  apply (mergeLists_disjoint iso_parse
           (Def [deck_server_deleted; deck_server_other])
           (Def [deck_client_other])).
  apply (bool_decide_unpack _). vm_compute. exact I.
Defined.

Lemma mergeLists_one_sided_witness :
  filter (λ x, id x = id deck_server_other)
         (mergeLists iso_parse (Def [deck_server_deleted; deck_server_other])
                     (Def [deck_client_newer; deck_client_other]))
  = [deck_server_other].
Proof.
  apply (mergeLists_one_sided iso_parse
           (Def [deck_server_deleted; deck_server_other])
           (Def [deck_client_newer; deck_client_other]) deck_server_other).
  - apply (bool_decide_unpack _). vm_compute. exact I.
  - apply (bool_decide_unpack _). vm_compute. exact I.
  - left. split.
    + right. left.
    + apply (bool_decide_unpack _). vm_compute. exact I.
Defined.

Lemma mergeLists_order_witness :
  id <$> mergeLists iso_parse (Def [deck_server_deleted; deck_server_other])
                    (Def [deck_client_other; deck_client_newer])
  = [PNum 1; PStr "d3"]
    ++ filter (λ k, k ∉ [PNum 1; PStr "d3"]) [PStr "d2"; PNum 1].
Proof.
  apply (mergeLists_order iso_parse
           (Def [deck_server_deleted; deck_server_other])
           (Def [deck_client_other; deck_client_newer])).
  - apply (bool_decide_unpack _). vm_compute. exact I.
  - apply (bool_decide_unpack _). vm_compute. exact I.
Defined.

Lemma mergeLists_time_monotone_witness :
  ∃ e, filter (λ x, id x = id deck_client_newer)
              (mergeLists iso_parse (Def [deck_server_deleted])
                          (Def [deck_client_newer]))
       = [e]
       ∧ (∀ a b, timeOf iso_parse deck_server_deleted = Some a →
                 timeOf iso_parse deck_client_newer = Some b →
                 timeOf iso_parse e = Some (Z.max a b))
       ∧ (timeOf iso_parse deck_server_deleted = None
          ∨ timeOf iso_parse deck_client_newer = None →
          e = with_isDeleted deck_server_deleted
                (js_or (isDeleted deck_client_newer)
                       (isDeleted deck_server_deleted))).
Proof.
  apply (mergeLists_time_monotone iso_parse (Def [deck_server_deleted])
           (Def [deck_client_newer]) deck_server_deleted deck_client_newer).
  - apply NoDup_singleton.
  - apply NoDup_singleton.
  - left.
  - left.
  - reflexivity.
Defined.

Lemma mergeLogs_appends_witness :
  ∃ extra, mergeLogs (Def [log_a]) (Def [log_a_again; log_b; log_b])
           = [log_a] ++ extra
           ∧ extra `sublist_of` [log_a_again; log_b; log_b]
           ∧ ∀ v, v ∈ extra → logKey v ∉ logKey <$> [log_a].
Proof.
  apply (mergeLogs_appends (Def [log_a]) (Def [log_a_again; log_b; log_b])).
  apply NoDup_singleton.
Defined.

Lemma username_not_string_witness :
  ∃ msg,
    app_post_api_proxy iso_parse upstream_down
      (request_of "sync-load" PUndefined PUndefined Undefined) store_alice
    = ({| status := 500; resp_body := Error msg |}, store_alice).
Proof.
  apply (username_not_string iso_parse upstream_down "sync-load" PUndefined
           PUndefined Undefined store_alice).
  - right. left.
  - intros s. discriminate.
Defined.

Lemma setUser_getUser_witness :
  ∃ st', setUser bob store_alice = (Ok (), st')
         ∧ (∀ u, toLowerCase u = toLowerCase "Bob" →
                 getUser (PStr u) st' = (Ok (Some bob), st'))
         ∧ (∀ u, toLowerCase u ≠ toLowerCase "Bob" →
                 getUser (PStr u) st' = ((getUser (PStr u) store_alice).1, st')).
Proof.
  apply (setUser_getUser bob "Bob" store_alice). reflexivity.
Defined.

Lemma register_then_login_witness :
  ∃ st1,
    app_post_api_proxy iso_parse upstream_down
      (request_of "auth-register" (PStr "Bob") (PStr "hunter2") Undefined)
      store_alice
    = ({| status := 201; resp_body := Message "Registered" |}, st1)
    ∧ app_post_api_proxy iso_parse upstream_down
        (request_of "auth-login" (PStr "BOB") (PStr "Hunter2") Undefined) st1
      = (if decide (PStr "Hunter2" = PStr "hunter2")
         then {| status := 200; resp_body := Message "Logged in" |}
         else {| status := 401; resp_body := Error "Invalid credentials" |},
         st1).
Proof.
  apply (register_then_login iso_parse upstream_down "Bob" "BOB"
           (PStr "hunter2") (PStr "Hunter2") Undefined Undefined store_alice).
  - reflexivity.
  - reflexivity.
  - reflexivity.
  - reflexivity.
Defined.

Lemma other_actions_read_only_witness :
  (app_post_api_proxy iso_parse upstream_down
     (request_of "sync-delete" (PStr "Alice") (PStr "secret") Undefined)
     store_alice).2 = store_alice
  ∧ ((∀ a, PStr "sync-delete" = PStr a →
           a ∉ ["ping"; "gemini-generate"; "dictionary-free"; "dictionary-mw";
                "fetch-audio"; "auth-register"; "auth-login"; "sync-load";
                "sync-merge"; "ping-free-dict"; "ping-mw"]) →
     (app_post_api_proxy iso_parse upstream_down
        (request_of "sync-delete" (PStr "Alice") (PStr "secret") Undefined)
        store_alice).1
     = {| status := 400; resp_body := Error "Invalid action" |}).
Proof.
  apply (other_actions_read_only iso_parse upstream_down
           (request_of "sync-delete" (PStr "Alice") (PStr "secret") Undefined)
           store_alice).
  - discriminate.
  - discriminate.
Defined.

Lemma store_alice_keyed : storeKeyed store_alice.
Proof.
  intros key r. unfold store_alice.
  intros [<- <-]%lookup_singleton_Some. reflexivity.
Qed.

Lemma syncMerge_frame_witness :
  let st' :=
    (app_post_api_proxy iso_parse upstream_down
       (request_of "sync-merge" (PStr "ALICE") PUndefined (Def bundle_client))
       store_alice).2 in
  st' = <["user:" +:+ toLowerCase "ALICE" :=
            {| username := PStr "Alice"; password := PStr "secret";
               data := Def (mergeBundle iso_parse emptyBundle bundle_client) |}]>
          store_alice
  ∧ ∀ key, key ≠ "user:" +:+ toLowerCase "ALICE" →
           st' !! key = store_alice !! key.
Proof.
  apply (syncMerge_frame iso_parse upstream_down "ALICE" PUndefined
           bundle_client alice store_alice).
  - exact store_alice_keyed.
  - reflexivity.
Defined.

Lemma syncMerge_then_load_witness :
  ∃ merged st1,
    app_post_api_proxy iso_parse upstream_down
      (request_of "sync-merge" (PStr "alice") PUndefined (Def bundle_client))
      store_alice
    = ({| status := 200; resp_body := Data (Def merged) |}, st1)
    ∧ app_post_api_proxy iso_parse upstream_down
        (request_of "sync-load" (PStr "ALICE") PUndefined Undefined) st1
      = ({| status := 200; resp_body := Data (Def merged) |}, st1).
Proof.
  apply (syncMerge_then_load iso_parse upstream_down "alice" "ALICE" "Alice"
           PUndefined PUndefined bundle_client Undefined alice store_alice).
  - reflexivity.
  - reflexivity.
  - reflexivity.
Defined.

Lemma register_then_first_sync_witness :
  ∃ st1 st2,
    app_post_api_proxy iso_parse upstream_down
      (request_of "auth-register" (PStr "Bob") (PStr "hunter2") Undefined)
      store_alice
    = ({| status := 201; resp_body := Message "Registered" |}, st1)
    ∧ app_post_api_proxy iso_parse upstream_down
        (request_of "sync-merge" (PStr "Bob") PUndefined
           (Def {| decks := Def [deck_client_tie; deck_client_other];
                   cards := Undefined;
                   studyHistory := Def [log_a; log_b];
                   userProfile := Undefined;
                   userAchievements := Null |}))
        st1
      = ({| status := 200;
            resp_body :=
              Data (Def {| decks := Def [deck_client_tie; deck_client_other];
                           cards := Def [];
                           studyHistory := Def [log_a; log_b];
                           userProfile := Null;
                           userAchievements := Def [] |}) |},
         st2).
Proof.
  apply (register_then_first_sync iso_parse upstream_down "Bob" (PStr "hunter2")
           PUndefined
           {| decks := Def [deck_client_tie; deck_client_other];
              cards := Undefined;
              studyHistory := Def [log_a; log_b];
              userProfile := Undefined;
              userAchievements := Null |}
           Undefined store_alice).
  - reflexivity.
  - reflexivity.
  - reflexivity.
  - apply (bool_decide_unpack _). vm_compute. exact I.
  - apply NoDup_nil_2.
  - apply NoDup_nil_2.
  - apply (bool_decide_unpack _). vm_compute. exact I.
Defined.

End PropertiesOnInputs.

(** * Properties of the remote backend *)

Section RemoteProperties.
Context {Other Profile : Type}.
Context {casing : Casing}.
Variable Date_parse : string → option Z.
Variable upstream : string → payload Other Profile → response Other Profile.

Local Abbreviation bundle := (DataBundle Other Profile).
Local Abbreviation record := (user Other Profile).
Local Abbreviation store := (gmap string (user Other Profile)).

Implicit Types (st kv : store) (r : record) (u v : string) (uname pw : prim)
  (d : nullable bundle) (get : kvGet record) (set : kvSet).

(** X21.  With the remote backend, a read that fails is taken for a user
    that does not exist: when the service does not answer ok, cannot be
    reached or has nothing under the key, a login answers 401, a sync-load
    answers 200 with [null], and a sync-merge answers 404 and writes
    nothing. *)
Theorem remote_read_failure get set u pw d :
  get = GetNotOk ∨ get = GetFailed ∨ get = GetResult None →
  let p := {| req_username := PStr u; req_password := pw; req_data := d |} in
  loginKV get p = {| status := 401; resp_body := Error "Invalid credentials" |}
  ∧ syncLoadKV get p = {| status := 200; resp_body := Data Null |}
  ∧ syncMergeKV Date_parse get set p
    = ({| status := 404; resp_body := Error "User not found" |}, []).
Proof. intros [-> | [-> | ->]]; by repeat split. Qed.

(** X22.  With the remote backend, a registration whose read fails goes
    ahead: one write is sent, a fresh record with an empty bundle under the
    key of the username, so a record the service holds under that key is
    replaced when the write is accepted.  The answer is 201 when the write
    is accepted and 500 with the error's message when it is not. *)
Theorem remote_register_after_failed_read get set u pw d :
  get = GetNotOk ∨ get = GetFailed ∨ get = GetResult None →
  truthy (PStr u) = true → truthy pw = true →
  let p := {| req_username := PStr u; req_password := pw; req_data := d |} in
  let key := "user:" +:+ toLowerCase u in
  let newUser :=
    {| username := PStr u; password := pw;
       data := Def (emptyBundle (Other:=Other) (Profile:=Profile)) |} in
  (registerKV get set p).2 = [(key, newUser)]
  ∧ (∀ kv, applyWrites (registerKV get set p).2 kv !! key = Some newUser)
  ∧ (registerKV get set p).1
    = match set with
      | SetOk => {| status := 201; resp_body := Message "Registered" |}
      | SetNotOk => routeError "Failed to write to KV"
      | SetFailed msg => routeError msg
      end.
Proof.
  intros Hget Hu Hpw p key newUser.
  assert (registerKV get set p
          = (match set with
             | SetOk => {| status := 201; resp_body := Message "Registered" |}
             | SetNotOk => routeError "Failed to write to KV"
             | SetFailed msg => routeError msg
             end, [(key, newUser)])) as ->.
  { unfold registerKV, p. cbn [req_username req_password].
    rewrite Hu, Hpw. simpl negb. simpl orb. cbv iota.
    destruct Hget as [-> | [-> | ->]]; by destruct set. }
  split; [done |]. split; [| done].
  intros kv. simpl. apply lookup_insert_eq.
Qed.

(** X23.  With the remote backend, a sync-merge for a record that was read
    sends exactly one write, the record with the merged bundle under the
    key of the record's username; it answers 200 with the merged bundle
    when the write is accepted and 500 when it is not. *)
Theorem remote_syncMerge_write set u v pw (b : bundle) r :
  username r = PStr v →
  let p := {| req_username := PStr u; req_password := pw; req_data := Def b |} in
  let merged := mergeBundle Date_parse (cloudDataOf r) b in
  syncMergeKV Date_parse (GetResult (Some r)) set p
  = (match set with
     | SetOk => {| status := 200; resp_body := Data (Def merged) |}
     | SetNotOk => routeError "Failed to write to KV"
     | SetFailed msg => routeError msg
     end,
     [("user:" +:+ toLowerCase v,
       {| username := username r; password := password r;
          data := Def merged |})]).
Proof.
  intros Hv p merged. unfold syncMergeKV, p, setUserKV.
  cbn [req_username req_data getUserKV getUserKey readClientData with_data
       username].
  rewrite Hv. cbn [getUserKey]. unfold with_data, merged. rewrite ?Hv.
  by destruct set.
Qed.

End RemoteProperties.

Section RemoteOnInputs.
#[local] Existing Instance ascii_casing.

Lemma remote_read_failure_witness :
  let p := {| req_username := PStr "Alice"; req_password := PStr "secret";
              req_data := Def bundle_client |} in
  loginKV GetNotOk p
  = {| status := 401; resp_body := Error "Invalid credentials" |}
  ∧ syncLoadKV GetNotOk p = {| status := 200; resp_body := Data Null |}
  ∧ syncMergeKV iso_parse GetNotOk SetOk p
    = ({| status := 404; resp_body := Error "User not found" |}, []).
Proof.
  apply (remote_read_failure iso_parse GetNotOk SetOk "Alice" (PStr "secret")
           (Def bundle_client)).
  left. reflexivity.
Defined.

Lemma remote_register_after_failed_read_witness :
  let p := {| req_username := PStr "ALICE"; req_password := PStr "other";
              req_data := Undefined |} in
  let newUser : user fields fields :=
    {| username := PStr "ALICE"; password := PStr "other";
       data := Def emptyBundle |} in
  (registerKV GetFailed SetOk p).2
  = [("user:" +:+ toLowerCase "ALICE", newUser)]
  ∧ (∀ kv, applyWrites (registerKV GetFailed SetOk p).2 kv
             !! ("user:" +:+ toLowerCase "ALICE")
          = Some newUser)
  ∧ (registerKV GetFailed SetOk p).1
    = {| status := 201; resp_body := Message "Registered" |}.
Proof.
  apply (remote_register_after_failed_read GetFailed SetOk "ALICE"
           (PStr "other") Undefined).
  - right. left. reflexivity.
  - reflexivity.
  - reflexivity.
Defined.

Lemma remote_syncMerge_write_witness :
  syncMergeKV iso_parse (GetResult (Some alice)) SetNotOk
    {| req_username := PStr "alice"; req_password := PUndefined;
       req_data := Def bundle_client |}
  = (routeError "Failed to write to KV",
     [("user:" +:+ toLowerCase "Alice",
       {| username := PStr "Alice"; password := PStr "secret";
          data := Def (mergeBundle iso_parse emptyBundle bundle_client) |})]).
Proof.
  apply (remote_syncMerge_write iso_parse SetNotOk "alice" "Alice" PUndefined
           bundle_client alice).
  reflexivity.
Defined.


End RemoteOnInputs.
